(** * moltcook.io: the secret codec and the combined-activity aggregator

    A shallow embedding of the two TypeScript modules of the repository
    that carry logic:

    - the wallet/secret codec ([getEncryptionKey], [encrypt], [decrypt],
      [generateWalletKeypair], [isValidSolanaAddress]);
    - [DatabaseStorage.getCombinedActivity], which merges posts, trades
      and audit logs into one feed.

    JavaScript strings are sequences of UTF-16 code units, buffers are
    sequences of bytes, exceptions are an error monad, [process.env] and
    the database handle are explicit arguments.  The Node [crypto]
    primitives, the ed25519 key generation and the SQL engine are external
    to the repository: they appear as records of operations. *)

From Stdlib Require Import List ZArith NArith Lia Bool Ascii String.
From Stdlib Require Import Init.Byte Strings.Byte.
From Stdlib Require Import Sorted Permutation DecimalString DecimalZ.
From stdpp Require Import base gmap.
Import ListNotations.

Local Open Scope N_scope.

(** ** JavaScript strings *)

Module Js.

(** A string is its sequence of UTF-16 code units (each below [2^16]). *)
Definition jsstring := list N.

(** An ASCII literal of the source text. *)
Definition lit (s : string) : jsstring :=
  List.map N_of_ascii (list_ascii_of_string s).

Definition code_unit_ok (c : N) : Prop := c < 65536.

(** [s1 === s2] on strings. *)
Fixpoint str_eqb (s1 s2 : jsstring) : bool :=
  match s1, s2 with
  | [], [] => true
  | a :: r1, b :: r2 => (a =? b) && str_eqb r1 r2
  | _, _ => false
  end.

(** Truthiness of a string: only the empty string is falsy. *)
Definition truthy (s : jsstring) : bool :=
  match s with [] => false | _ :: _ => true end.

(** [s || d] where [s] may be [undefined]. *)
Definition or_default (s : option jsstring) (d : jsstring) : jsstring :=
  match s with
  | Some v => if truthy v then v else d
  | None => d
  end.

(** [s || null] where [s] may be [undefined] or [null]. *)
Definition or_null (s : option (option jsstring)) : option jsstring :=
  match s with
  | Some (Some v) => if truthy v then Some v else None
  | _ => None
  end.

(** Truthiness of a nullable number: [null] and [0] are falsy. *)
Definition truthy_num (n : option Z) : bool :=
  match n with
  | Some z => negb (z =? 0)%Z
  | None => false
  end.

(** [`${n}`] for an integer [n]: decimal digits, with a leading minus
    sign for a negative number. *)
Definition number_to_string (n : Z) : jsstring :=
  lit (NilEmpty.string_of_int (Z.to_int n)).

(** [s.split(sep)] for a one-character separator. *)
Fixpoint split (sep : N) (s : jsstring) : list jsstring :=
  match s with
  | [] => [[]]
  | c :: rest =>
      if c =? sep then [] :: split sep rest
      else match split sep rest with
           | p :: ps => (c :: p) :: ps
           | [] => [[c]]
           end
  end.

(** [arr.slice(0, limit)]: a negative [limit] counts from the end. *)
Definition slice0 {A} (limit : Z) (l : list A) : list A :=
  if (limit <? 0)%Z
  then firstn (Z.to_nat (Z.max 0 (Z.of_nat (length l) + limit))) l
  else firstn (Z.to_nat limit) l.

(** [Array.prototype.sort(cmp)].  The sort is stable, and for a consistent
    comparator its result is the one stable arrangement in which no element
    is followed by one that the comparator puts strictly before it; an
    insertion sort that places each element in front of the first element
    it does not follow computes that arrangement. *)
Fixpoint sort_insert {A} (cmp : A -> A -> Z) (x : A) (l : list A) : list A :=
  match l with
  | [] => [x]
  | y :: l' =>
      if (cmp x y <=? 0)%Z then x :: y :: l'
      else y :: sort_insert cmp x l'
  end.

Definition sort {A} (cmp : A -> A -> Z) (l : list A) : list A :=
  List.fold_right (sort_insert cmp) [] l.

(** Descending order of a numeric key. *)
Definition descending_by {A} (key : A -> Z) (a b : A) : Prop :=
  (key b <= key a)%Z.

End Js.

(** ** Buffers: hexadecimal and UTF-8 *)

Module Buffer.
Import Js.

(** The byte with value [n mod 256]. *)
Definition byte_of_N (n : N) : byte :=
  match Byte.of_N (n mod 256) with
  | Some b => b
  | None => x00
  end.

Definition hex_digit (n : N) : N := if n <? 10 then 48 + n else 87 + n.

Definition hex_of_byte (b : byte) : jsstring :=
  [hex_digit (Byte.to_N b / 16); hex_digit (Byte.to_N b mod 16)].

(** [buf.toString("hex")]: two lower-case digits per byte. *)
Definition toString_hex (buf : list byte) : jsstring :=
  List.flat_map hex_of_byte buf.

Definition unhex (c : N) : option N :=
  if (48 <=? c) && (c <=? 57) then Some (c - 48)
  else if (97 <=? c) && (c <=? 102) then Some (c - 87)
  else if (65 <=? c) && (c <=? 70) then Some (c - 55)
  else None.

(** [Buffer.from(s, "hex")]: pairs of digits are decoded until the first
    pair that is not hexadecimal; a trailing single digit is dropped. *)
Fixpoint from_hex (s : jsstring) : list byte :=
  match s with
  | a :: b :: rest =>
      match unhex a, unhex b with
      | Some x, Some y => byte_of_N (16 * x + y) :: from_hex rest
      | _, _ => []
      end
  | _ => []
  end.

(** [a ^ b] on bytes. *)
Definition byte_xor (a b : byte) : byte :=
  byte_of_N (N.lxor (Byte.to_N a) (Byte.to_N b)).

Definition is_high_surrogate (c : N) : bool := (0xD800 <=? c) && (c <=? 0xDBFF).
Definition is_low_surrogate (c : N) : bool := (0xDC00 <=? c) && (c <=? 0xDFFF).

Definition replacement : N := 0xFFFD.

Definition utf8_of_code_point (cp : N) : list byte :=
  if cp <? 0x80 then [byte_of_N cp]
  else if cp <? 0x800 then
    [byte_of_N (0xC0 + cp / 64); byte_of_N (0x80 + cp mod 64)]
  else if cp <? 0x10000 then
    [byte_of_N (0xE0 + cp / 4096); byte_of_N (0x80 + (cp / 64) mod 64);
     byte_of_N (0x80 + cp mod 64)]
  else
    [byte_of_N (0xF0 + cp / 262144); byte_of_N (0x80 + (cp / 4096) mod 64);
     byte_of_N (0x80 + (cp / 64) mod 64); byte_of_N (0x80 + cp mod 64)].

(** [Buffer.from(s, "utf8")], the conversion applied to a string handed to
    [cipher.update(s, "utf8", ...)] or [hash.update(s)]: a surrogate pair
    is one code point, an unpaired surrogate is written as U+FFFD. *)
Fixpoint utf8_encode (s : jsstring) : list byte :=
  match s with
  | [] => []
  | c :: rest =>
      if is_high_surrogate c then
        match rest with
        | d :: rest' =>
            if is_low_surrogate d
            then utf8_of_code_point
                   (0x10000 + (c - 0xD800) * 1024 + (d - 0xDC00))
                 ++ utf8_encode rest'
            else utf8_of_code_point replacement ++ utf8_encode rest
        | [] => utf8_of_code_point replacement
        end
      else if is_low_surrogate c
      then utf8_of_code_point replacement ++ utf8_encode rest
      else utf8_of_code_point c ++ utf8_encode rest
  end.

(** State of the UTF-8 decoder inside a multi-byte sequence: the bits
    gathered so far, the continuation bytes still expected, and the range
    allowed for the next byte. *)
Record pending := {
  acc : N;
  needed : nat;
  lower : N;
  upper : N;
}.

Inductive lead_result :=
| Emit (cp : N)
| Pend (p : pending).

(** A byte met outside a sequence. *)
Definition lead (b : N) : lead_result :=
  if b <? 0x80 then Emit b
  else if (0xC2 <=? b) && (b <=? 0xDF) then
    Pend {| acc := b - 0xC0; needed := 1; lower := 0x80; upper := 0xBF |}
  else if (0xE0 <=? b) && (b <=? 0xEF) then
    Pend {| acc := b - 0xE0; needed := 2;
            lower := if b =? 0xE0 then 0xA0 else 0x80;
            upper := if b =? 0xED then 0x9F else 0xBF |}
  else if (0xF0 <=? b) && (b <=? 0xF4) then
    Pend {| acc := b - 0xF0; needed := 3;
            lower := if b =? 0xF0 then 0x90 else 0x80;
            upper := if b =? 0xF4 then 0x8F else 0xBF |}
  else Emit replacement.

(** The decoder: code points of a byte sequence, every maximal ill-formed
    part giving one U+FFFD. *)
Fixpoint decode_code_points (st : option pending) (bs : list byte) : list N :=
  match bs with
  | [] => match st with None => [] | Some _ => [replacement] end
  | b :: rest =>
      let restart :=
        match lead (Byte.to_N b) with
        | Emit cp => cp :: decode_code_points None rest
        | Pend p => decode_code_points (Some p) rest
        end in
      match st with
      | None => restart
      | Some p =>
          if (lower p <=? Byte.to_N b) && (Byte.to_N b <=? upper p) then
            let acc' := acc p * 64 + (Byte.to_N b - 0x80) in
            match needed p with
            | S (S n) =>
                decode_code_points
                  (Some {| acc := acc'; needed := S n;
                           lower := 0x80; upper := 0xBF |}) rest
            | _ => acc' :: decode_code_points None rest
            end
          else replacement :: restart
      end
  end.

(** A Unicode scalar value: a code point that is not a surrogate. *)
Definition scalar (cp : N) : Prop := cp < 0xD800 \/ 0xE000 <= cp < 0x110000.

(** [s.isWellFormed()]: every code unit is below [2^16] and every
    surrogate is half of a pair. *)
Fixpoint isWellFormed (s : jsstring) : bool :=
  match s with
  | [] => true
  | c :: rest =>
      if is_high_surrogate c then
        match rest with
        | d :: rest' => is_low_surrogate d && isWellFormed rest'
        | [] => false
        end
      else negb (is_low_surrogate c) && (c <? 0x10000) && isWellFormed rest
  end.

Definition utf16_of_code_point (cp : N) : jsstring :=
  if cp <? 0x10000 then [cp]
  else [0xD800 + (cp - 0x10000) / 1024; 0xDC00 + (cp - 0x10000) mod 1024].

(** [buf.toString("utf8")], also what the string decoder of
    [decipher.update(..., "utf8")] followed by [decipher.final("utf8")]
    yields for the whole plaintext. *)
Definition toString_utf8 (buf : list byte) : jsstring :=
  List.flat_map utf16_of_code_point (decode_code_points None buf).

End Buffer.

(** ** Exceptions *)

(** What the codec can throw.  The source throws plain [Error] objects;
    the three kinds the specification names are told apart by where they
    are raised, the others come from the libraries called. *)
Inductive error :=
| ConfigurationError    (* "SESSION_SECRET is required in production" *)
| FormatError           (* "Invalid encrypted text format" *)
| AuthenticationError   (* decipher.final(): unable to authenticate data *)
| InvalidKeyLength      (* createCipheriv / createDecipheriv *)
| InvalidIV             (* createCipheriv / createDecipheriv *)
| InvalidAuthTagLength  (* decipher.setAuthTag *)
| InvalidHexString      (* decipher.update(data, "hex", ...) *)
| NonBase58Character    (* bs58.decode *)
| InvalidPublicKeyInput (* new PublicKey *).

Inductive result (A : Type) :=
| Ok (a : A)
| Throw (e : error).
Arguments Ok {A} a.
Arguments Throw {A} e.

Definition bind {A B} (r : result A) (k : A -> result B) : result B :=
  match r with
  | Ok a => k a
  | Throw e => Throw e
  end.

Notation "'do' x <- r ; k" := (bind r (fun x => k))
  (at level 10, x name, r at level 100, k at level 200).

(** [try { body } catch { fallback }] *)
Definition try_catch {A} (body : result A) (fallback : A) : A :=
  match body with
  | Ok a => a
  | Throw _ => fallback
  end.

(** ** Positional number systems, as used by bs58 and by big numbers *)

Module Radix.

(** Value of big-endian digits. *)
Definition value (base : N) (ds : list N) : N :=
  List.fold_left (fun a d => a * base + d) ds 0.

Fixpoint digits_aux (fuel : nat) (base n : N) (out : list N) : list N :=
  match fuel with
  | O => out
  | S fuel' =>
      if n =? 0 then out
      else digits_aux fuel' base (n / base) (n mod base :: out)
  end.

(** Big-endian digits of [n] without a leading zero; none for [0]. *)
Definition digits (base n : N) : list N :=
  digits_aux (N.size_nat n) base n [].

(** Number of leading elements satisfying [p]. *)
Fixpoint count_leading {A} (p : A -> bool) (l : list A) : nat :=
  match l with
  | x :: l' => if p x then S (count_leading p l') else O
  | [] => O
  end.

End Radix.

(** ** bs58 *)

Module Base58.
Import Js Buffer Radix.

Definition ALPHABET : jsstring :=
  lit "123456789ABCDEFGHJKLMNPQRSTUVWXYZabcdefghijkmnopqrstuvwxyz".

Definition LEADER : N := 49.

Fixpoint index_of (c : N) (l : jsstring) (i : N) : option N :=
  match l with
  | [] => None
  | a :: l' => if a =? c then Some i else index_of c l' (i + 1)
  end.

Definition digit_of_char (c : N) : option N := index_of c ALPHABET 0.

Definition char_of_digit (d : N) : N := List.nth (N.to_nat d) ALPHABET LEADER.

Fixpoint digits_of_chars (s : jsstring) : option (list N) :=
  match s with
  | [] => Some []
  | c :: s' =>
      match digit_of_char c, digits_of_chars s' with
      | Some d, Some ds => Some (d :: ds)
      | _, _ => None
      end
  end.

(** [bs58.encode(bytes)]: one leader character per leading zero byte, then
    the base-58 digits of the big-endian number the bytes spell. *)
Definition encode (source : list byte) : jsstring :=
  let zeroes := count_leading (fun b => Byte.to_N b =? 0) source in
  List.repeat LEADER zeroes
  ++ List.map char_of_digit (digits 58 (value 256 (List.map Byte.to_N source))).

(** [bs58.decode(string)]: throws on a character outside the alphabet. *)
Definition decode (source : jsstring) : result (list byte) :=
  let zeroes := count_leading (fun c => c =? LEADER) source in
  match digits_of_chars (skipn zeroes source) with
  | None => Throw NonBase58Character
  | Some ds =>
      Ok (List.repeat x00 zeroes
          ++ List.map byte_of_N (digits 256 (value 58 ds)))
  end.

End Base58.

(** ** External primitives of the codec *)

(** Node's [crypto] module, as far as the codec uses it.  AES-256-GCM is
    counter mode plus a tag over the ciphertext: [gcm_keystream key iv i]
    is byte [i] of the key stream and [gcm_tag key iv c] the 16-byte tag of
    ciphertext [c] (no associated data).  [gcm_iv_length_ok] tells which
    IV lengths the cipher accepts. *)
Record NodeCrypto := {
  sha256 : list byte -> list byte;
  gcm_keystream : list byte -> list byte -> nat -> byte;
  gcm_tag : list byte -> list byte -> list byte -> list byte;
  gcm_iv_length_ok : nat -> bool;
}.

(** What is relied upon of the primitives: digest and tag sizes, and that
    a 16-byte IV is accepted. *)
Record NodeCrypto_ok (C : NodeCrypto) : Prop := {
  sha256_length : forall m, length (sha256 C m) = 32%nat;
  gcm_tag_length : forall k iv c, length (gcm_tag C k iv c) = 16%nat;
  gcm_iv16_ok : gcm_iv_length_ok C 16 = true;
}.

(** ed25519 as used by [Keypair.generate()]. *)
Record Ed25519 := {
  getPublicKey : list byte -> list byte;
}.

(** A source of random bytes: byte [i] of the stream. *)
Definition entropy := nat -> byte.

(** [randomBytes(n)] *)
Definition randomBytes (n : nat) (ent : entropy) : list byte :=
  List.map ent (seq 0 n).

(** [process.env], the two variables read. *)
Record ProcessEnv := {
  SESSION_SECRET : option Js.jsstring;
  NODE_ENV : option Js.jsstring;
}.

(** A toy instance of the primitives, to run the definitions. *)
Definition toy_crypto : NodeCrypto := {|
  sha256 := fun m => firstn 32 (m ++ List.repeat x2a 32);
  gcm_keystream := fun k iv i => List.nth i (k ++ iv) x5c;
  gcm_tag := fun k iv c => firstn 16 (c ++ iv ++ List.repeat x00 16);
  gcm_iv_length_ok := fun n => negb (Nat.eqb n 0);
|}.

Definition toy_ed25519 : Ed25519 := {|
  getPublicKey := fun sk => firstn 32 (sk ++ List.repeat x01 32);
|}.

(** ** The secret codec *)

Module Codec.
Import Js Buffer.

Definition ALGORITHM : jsstring := lit "aes-256-gcm".

Definition COLON : N := 58.

Fixpoint bytes_eqb (a b : list byte) : bool :=
  match a, b with
  | [], [] => true
  | x :: a', y :: b' => Byte.eqb x y && bytes_eqb a' b'
  | _, _ => false
  end.

(** A cipher or decipher object of [createCipheriv("aes-256-gcm", key, iv)]. *)
Record Cipher := {
  cipher_key : list byte;
  cipher_iv : list byte;
}.

Definition createCipheriv (C : NodeCrypto) (key iv : list byte) : result Cipher :=
  if negb (Nat.eqb (length key) 32) then Throw InvalidKeyLength
  else if negb (gcm_iv_length_ok C (length iv)) then Throw InvalidIV
  else Ok {| cipher_key := key; cipher_iv := iv |}.

(** Counter mode: byte [i] of the data is combined with byte [i] of the
    key stream; the same transformation encrypts and decrypts. *)
Definition gcm_crypt (C : NodeCrypto) (c : Cipher) (data : list byte) : list byte :=
  List.map (fun ib => byte_xor (snd ib)
                        (gcm_keystream C (cipher_key c) (cipher_iv c) (fst ib)))
           (List.combine (seq 0 (length data)) data).

(** [cipher.getAuthTag()] after all of [ciphertext] was produced. *)
Definition getAuthTag (C : NodeCrypto) (c : Cipher) (ciphertext : list byte) : list byte :=
  gcm_tag C (cipher_key c) (cipher_iv c) ciphertext.

(** Tag lengths [decipher.setAuthTag] accepts for GCM when no
    [authTagLength] option was given: 4, 8, and 12 to 16 bytes. *)
Definition valid_gcm_tag_length (n : nat) : bool :=
  Nat.eqb n 4 || Nat.eqb n 8 || (Nat.leb 12 n && Nat.leb n 16).

Definition setAuthTag (authTag : list byte) : result unit :=
  if valid_gcm_tag_length (length authTag) then Ok tt
  else Throw InvalidAuthTagLength.

(** [decipher.final()]: the tag set is compared with as many bytes of the
    computed tag as it has. *)
Definition tag_verifies (C : NodeCrypto) (c : Cipher) (authTag ciphertext : list byte) : bool :=
  bytes_eqb (firstn (length authTag) (getAuthTag C c ciphertext)) authTag.

Definition production : jsstring := lit "production".

Definition getEncryptionKey (C : NodeCrypto) (env : ProcessEnv) : result (list byte) :=
  let key := SESSION_SECRET env in
  if negb (match key with Some k => truthy k | None => false end) then
    if match NODE_ENV env with
       | Some mode => str_eqb mode production
       | None => false
       end
    then Throw ConfigurationError
    else
      let fallback := sha256 C (utf8_encode (lit "moltcook-dev-only-key")) in
      Ok fallback
  else Ok (sha256 C (utf8_encode (match key with Some k => k | None => [] end))).

(** The key used when no secret is configured outside production. *)
Definition dev_key (C : NodeCrypto) : list byte :=
  sha256 C (utf8_encode (lit "moltcook-dev-only-key")).

Definition encrypt (C : NodeCrypto) (env : ProcessEnv) (ent : entropy)
    (text : jsstring) : result jsstring :=
  do key <- getEncryptionKey C env;
  let iv := randomBytes 16 ent in
  do cipher <- createCipheriv C key iv;
  let ciphertext := gcm_crypt C cipher (utf8_encode text) in
  let encrypted := toString_hex ciphertext ++ toString_hex [] in
  let authTag := toString_hex (getAuthTag C cipher ciphertext) in
  Ok (toString_hex iv ++ [COLON] ++ authTag ++ [COLON] ++ encrypted).

(** The input of [decipher.update(data, "hex", ...)]: a string with an odd
    number of characters is refused, any other is decoded as
    [Buffer.from(data, "hex")] decodes it. *)
Definition update_hex_input (data : jsstring) : result (list byte) :=
  if Nat.odd (length data) then Throw InvalidHexString
  else Ok (from_hex data).

Definition decrypt (C : NodeCrypto) (env : ProcessEnv)
    (encryptedText : jsstring) : result jsstring :=
  do key <- getEncryptionKey C env;
  let parts := split COLON encryptedText in
  match parts with
  | [part0; part1; part2] =>
      let iv := from_hex part0 in
      let authTag := from_hex part1 in
      let encrypted := part2 in
      do decipher <- createCipheriv C key iv;
      do _ <- setAuthTag authTag;
      do ciphertext <- update_hex_input encrypted;
      let decrypted := gcm_crypt C decipher ciphertext in
      if tag_verifies C decipher authTag ciphertext
      then Ok (toString_utf8 decrypted)
      else Throw AuthenticationError
  | _ => Throw FormatError
  end.

(** web3.js [PublicKey]: the key is kept as a big number; the constructor
    rejects a number that needs more than 32 bytes, and [toBytes] pads the
    number back to 32 bytes. *)
Definition PUBLIC_KEY_LENGTH : nat := 32.

Definition PublicKey_new (value : list byte) : result N :=
  let bn := Radix.value 256 (List.map Byte.to_N value) in
  if Nat.ltb PUBLIC_KEY_LENGTH (length (Radix.digits 256 bn))
  then Throw InvalidPublicKeyInput
  else Ok bn.

Definition PublicKey_toBytes (bn : N) : list byte :=
  let b := List.map byte_of_N (Radix.digits 256 bn) in
  List.repeat x00 (PUBLIC_KEY_LENGTH - length b) ++ b.

Definition PublicKey_toBase58 (bn : N) : jsstring :=
  Base58.encode (PublicKey_toBytes bn).

Record WalletKeypair := {
  publicKey : jsstring;
  privateKey : jsstring;
}.

(** [Keypair.generate()] draws a 32-byte private scalar; the secret key is
    the scalar followed by the public key. *)
Definition generateWalletKeypair (E : Ed25519) (ent : entropy) : result WalletKeypair :=
  let privateScalar := randomBytes 32 ent in
  let pub := getPublicKey E privateScalar in
  let secretKey := privateScalar ++ pub in
  do keypair_publicKey <- PublicKey_new pub;
  Ok {| publicKey := PublicKey_toBase58 keypair_publicKey;
        privateKey := Base58.encode secretKey |}.

Definition isValidSolanaAddress (address : jsstring) : bool :=
  try_catch
    (do decoded <- Base58.decode address;
     Ok (Nat.eqb (length decoded) 32))
    false.

End Codec.

(** ** Rows of the schema *)

(** The table definitions ([@shared/schema]) are outside the sources at
    hand; the rows carry the columns the aggregator reads.  Identifiers
    are integers, timestamps are milliseconds since the epoch, [None] is
    SQL [NULL]. *)

#[local] Unset Elimination Schemes.
Inductive json :=
| JNull
| JBool (b : bool)
| JNumber (z : Z)
| JString (s : Js.jsstring)
| JArray (l : list json)
| JObject (l : list (Js.jsstring * json)).
#[local] Set Elimination Schemes.

Module BotPost.
Record t := {
  id : Z;
  botId : Z;
  content : option Js.jsstring;
  postType : Js.jsstring;
  tweetId : option Js.jsstring;
  status : Js.jsstring;
  createdAt : option Z;
}.
End BotPost.

Module Trade.
Record t := {
  id : Z;
  botId : Z;
  tokenMint : Js.jsstring;
  tokenSymbol : option Js.jsstring;
  amountSol : option Js.jsstring;
  amountTokens : option Js.jsstring;
  txHash : option Js.jsstring;
  status : Js.jsstring;
  tradeType : Js.jsstring;
  createdAt : option Z;
}.
End Trade.

Module AuditLog.
Record t := {
  id : Z;
  botId : option Z;
  userId : option Z;
  action : Js.jsstring;
  details : json;
  createdAt : option Z;
}.
End AuditLog.

(** The projections selected from [bots], [users] and [botXAccounts]. *)
Module BotRow.
Record t := { id : Z; botName : Js.jsstring; userId : Z }.
End BotRow.

Module UserRow.
Record t := { id : Z; username : Js.jsstring }.
End UserRow.

Module XAccountRow.
Record t := { botId : Z; xProfileImageUrl : option Js.jsstring }.
End XAccountRow.

(** The database handle [db], reduced to the six queries of
    [getCombinedActivity].  An [inArray] condition depends on the set of
    the identifiers listed only. *)
Record Database := {
  (* db.select().from(botPosts).orderBy(desc(botPosts.createdAt)).limit(n) *)
  recent_botPosts : Z -> list BotPost.t;
  (* db.select().from(trades).orderBy(desc(trades.createdAt)).limit(n) *)
  recent_trades : Z -> list Trade.t;
  (* db.select().from(auditLogs).orderBy(desc(auditLogs.createdAt)).limit(n) *)
  recent_auditLogs : Z -> list AuditLog.t;
  (* db.select({id, botName, userId}).from(bots).where(inArray(bots.id, ids)) *)
  bots_inArray : gset Z -> list BotRow.t;
  (* db.select({id, username}).from(users).where(inArray(users.id, ids)) *)
  users_inArray : gset Z -> list UserRow.t;
  (* db.select({botId, xProfileImageUrl}).from(botXAccounts)
       .where(inArray(botXAccounts.botId, ids)) *)
  botXAccounts_inArray : gset Z -> list XAccountRow.t;
}.

(** ** The activity aggregator *)

Module Storage.
Import Js.

Inductive ItemType := tweet | trade | system.

Definition ItemType_tag (ty : ItemType) : jsstring :=
  match ty with
  | tweet => lit "tweet"
  | trade => lit "trade"
  | system => lit "system"
  end.

Inductive ItemDetails :=
| PostDetails (content tweetId : option jsstring) (postType status : jsstring)
| TradeDetails (tokenMint : jsstring)
    (tokenSymbol amountSol amountTokens txHash : option jsstring)
    (status tradeType : jsstring)
| LogDetails (details : json).

Record CombinedActivityItem := {
  id : jsstring;
  type : ItemType;
  action : jsstring;
  botId : Z;
  botName : jsstring;
  ownerUsername : jsstring;
  botProfileImageUrl : option jsstring;
  details : ItemDetails;
  createdAt : option Z;
}.

Record BotInfo := { info_botName : jsstring; info_userId : Z }.

(** The three lookup objects built from the batch queries. *)
Record Lookups := {
  botMap : gmap Z BotInfo;
  userMap : gmap Z jsstring;
  pfpMap : gmap Z (option jsstring);
}.

Definition Unknown : jsstring := lit "Unknown".
Definition System : jsstring := lit "System".

(** [bot ? (userMap[bot.userId] || "Unknown") : otherwise] *)
Definition ownerOf (L : Lookups) (bot : option BotInfo) (otherwise : jsstring) : jsstring :=
  match bot with
  | Some b => or_default (userMap L !! info_userId b) Unknown
  | None => otherwise
  end.

Definition postItem (L : Lookups) (post : BotPost.t) : CombinedActivityItem :=
  let bot := botMap L !! BotPost.botId post in
  {| id := lit "tweet-" ++ number_to_string (BotPost.id post);
     type := tweet;
     action := if str_eqb (BotPost.postType post) (lit "reply")
               then lit "reply_posted" else lit "tweet_posted";
     botId := BotPost.botId post;
     botName := or_default (info_botName <$> bot) Unknown;
     ownerUsername := ownerOf L bot Unknown;
     botProfileImageUrl := or_null (pfpMap L !! BotPost.botId post);
     details := PostDetails (firstn 120 <$> BotPost.content post)
                  (BotPost.tweetId post) (BotPost.postType post)
                  (BotPost.status post);
     createdAt := BotPost.createdAt post |}.

Definition tradeItem (L : Lookups) (trade : Trade.t) : CombinedActivityItem :=
  let bot := botMap L !! Trade.botId trade in
  {| id := lit "trade-" ++ number_to_string (Trade.id trade);
     type := Storage.trade;
     action := if str_eqb (Trade.tradeType trade) (lit "buy")
               then lit "token_bought" else lit "token_sold";
     botId := Trade.botId trade;
     botName := or_default (info_botName <$> bot) Unknown;
     ownerUsername := ownerOf L bot Unknown;
     botProfileImageUrl := or_null (pfpMap L !! Trade.botId trade);
     details := TradeDetails (Trade.tokenMint trade) (Trade.tokenSymbol trade)
                  (Trade.amountSol trade) (Trade.amountTokens trade)
                  (Trade.txHash trade) (Trade.status trade)
                  (Trade.tradeType trade);
     createdAt := Trade.createdAt trade |}.

Definition logItem (L : Lookups) (log : AuditLog.t) : CombinedActivityItem :=
  let bot :=
    if truthy_num (AuditLog.botId log)
    then botMap L !! default 0%Z (AuditLog.botId log)
    else None in
  {| id := lit "log-" ++ number_to_string (AuditLog.id log);
     type := system;
     action := AuditLog.action log;
     botId := if truthy_num (AuditLog.botId log)
              then default 0%Z (AuditLog.botId log) else 0%Z;
     botName := or_default (info_botName <$> bot) System;
     ownerUsername :=
       ownerOf L bot
         (if truthy_num (AuditLog.userId log)
          then or_default (userMap L !! default 0%Z (AuditLog.userId log)) Unknown
          else System);
     botProfileImageUrl :=
       if truthy_num (AuditLog.botId log)
       then or_null (pfpMap L !! default 0%Z (AuditLog.botId log))
       else None;
     details := LogDetails (AuditLog.details log);
     createdAt := AuditLog.createdAt log |}.

(** The batches fetched first. *)
Record Fetched := {
  recentPosts : list BotPost.t;
  recentTrades : list Trade.t;
  recentLogs : list AuditLog.t;
}.

Definition fetch (db : Database) (limit : Z) : Fetched :=
  {| recentPosts := recent_botPosts db limit;
     recentTrades := recent_trades db limit;
     recentLogs := recent_auditLogs db limit |}.

(** [Array.from(new Set([...]))] of the bot ids the batches mention. *)
Definition allBotIds (F : Fetched) : gset Z :=
  list_to_set
    ((BotPost.botId <$> recentPosts F)
     ++ (Trade.botId <$> recentTrades F)
     ++ omap AuditLog.botId (recentLogs F)).

(** The three batch queries and the objects filled from their rows, a
    later row replacing an earlier one with the same key. *)
Definition resolve (db : Database) (ids : gset Z) : Lookups :=
  let allBotsList := bots_inArray db ids in
  let botMap :=
    foldl (fun m b => <[BotRow.id b :=
                          {| info_botName := BotRow.botName b;
                             info_userId := BotRow.userId b |}]> m)
          ∅ allBotsList in
  let userIds : gset Z :=
    list_to_set ((fun kv => info_userId (snd kv)) <$> map_to_list botMap) in
  let allUsers :=
    if decide (userIds = ∅) then [] else users_inArray db userIds in
  let userMap :=
    foldl (fun m u => <[UserRow.id u := UserRow.username u]> m) ∅ allUsers in
  let xAccounts :=
    if decide (ids = ∅) then [] else botXAccounts_inArray db ids in
  let pfpMap :=
    foldl (fun m x => <[XAccountRow.botId x := XAccountRow.xProfileImageUrl x]> m)
          ∅ xAccounts in
  {| botMap := botMap; userMap := userMap; pfpMap := pfpMap |}.

(** The items pushed by the three loops, in order. *)
Definition normalize (L : Lookups) (F : Fetched) : list CombinedActivityItem :=
  (postItem L <$> recentPosts F)
  ++ (tradeItem L <$> recentTrades F)
  ++ (logItem L <$> recentLogs F).

(** [a.createdAt ? new Date(a.createdAt).getTime() : 0] *)
Definition timeOf (a : CombinedActivityItem) : Z :=
  match createdAt a with
  | Some t => t
  | None => 0%Z
  end.

Definition byCreatedAtDesc (a b : CombinedActivityItem) : Z :=
  let ta := timeOf a in
  let tb := timeOf b in
  (tb - ta)%Z.

Definition getCombinedActivity (db : Database) (limit : Z) : list CombinedActivityItem :=
  let F := fetch db limit in
  if decide (allBotIds F = ∅) then []
  else
    let L := resolve db (allBotIds F) in
    let items := normalize L F in
    slice0 limit (sort byCreatedAtDesc items).

(** [getCombinedActivity()] with the default [limit = 30]. *)
Definition getCombinedActivity_default (db : Database) : list CombinedActivityItem :=
  getCombinedActivity db 30.

End Storage.

(** ** Sample data *)

Module Sample.
Import Js Storage.

Definition post (i b : Z) (t : option Z) : BotPost.t :=
  {| BotPost.id := i; BotPost.botId := b;
     BotPost.content := Some (lit "gm");
     BotPost.postType := lit "original"; BotPost.tweetId := None;
     BotPost.status := lit "posted"; BotPost.createdAt := t |}.

Definition trade (i b : Z) (t : option Z) : Trade.t :=
  {| Trade.id := i; Trade.botId := b; Trade.tokenMint := lit "So11";
     Trade.tokenSymbol := Some (lit "SOL"); Trade.amountSol := Some (lit "0.5");
     Trade.amountTokens := None; Trade.txHash := None;
     Trade.status := lit "completed"; Trade.tradeType := lit "buy";
     Trade.createdAt := t |}.

Definition log (i : Z) (b u : option Z) (t : option Z) : AuditLog.t :=
  {| AuditLog.id := i; AuditLog.botId := b; AuditLog.userId := u;
     AuditLog.action := lit "user_registered"; AuditLog.details := JNull;
     AuditLog.createdAt := t |}.

Definition bots_table : list BotRow.t :=
  [ {| BotRow.id := 5; BotRow.botName := lit "molty"; BotRow.userId := 1 |} ].

Definition users_table : list UserRow.t :=
  [ {| UserRow.id := 1; UserRow.username := lit "alice" |} ].

(** A database whose three recent-record queries return the given rows
    and whose lookups filter the two small tables above. *)
Definition database (posts : list BotPost.t) (trades : list Trade.t)
    (logs : list AuditLog.t) : Database :=
  {| recent_botPosts := fun _ => posts;
     recent_trades := fun _ => trades;
     recent_auditLogs := fun _ => logs;
     bots_inArray := fun ids =>
       List.filter (fun b => bool_decide (BotRow.id b ∈ ids)) bots_table;
     users_inArray := fun ids =>
       List.filter (fun u => bool_decide (UserRow.id u ∈ ids)) users_table;
     botXAccounts_inArray := fun _ => [] |}.

(** Two posts, one trade by a bot that is not in [bots], one system log. *)
Definition mixed_db : Database :=
  database [post 1 5 (Some 100%Z); post 2 5 None]
           [trade 1 7 (Some 70%Z)]
           [log 9 None None (Some 60%Z)].

(** Only system-level audit logs: no record mentions a bot. *)
Definition system_only_db : Database :=
  database [] [] [log 9 None None (Some 60%Z); log 8 None (Some 1%Z) (Some 40%Z)].

(** One audit log of a bot. *)
Definition one_log_db : Database :=
  database [] [] [log 9 (Some 5%Z) None (Some 60%Z)].

End Sample.

(** Sample configurations of the codec. *)
Module CodecSample.
Import Js Buffer.

Definition configured : ProcessEnv :=
  {| SESSION_SECRET := Some (lit "correct horse battery staple");
     NODE_ENV := Some (lit "production") |}.

Definition production_without_secret : ProcessEnv :=
  {| SESSION_SECRET := None; NODE_ENV := Some (lit "production") |}.

Definition production_empty_secret : ProcessEnv :=
  {| SESSION_SECRET := Some []; NODE_ENV := Some (lit "production") |}.

Definition development : ProcessEnv :=
  {| SESSION_SECRET := None; NODE_ENV := Some (lit "development") |}.

Definition dice : entropy := fun i => byte_of_N (N.of_nat (7 * i + 3)).

End CodecSample.

(** More sample data. *)
Module SampleMore.
Import Js Storage.

(** Four records created at the same instant. *)
Definition tie_db : Database :=
  Sample.database
    [Sample.post 1 5 (Some 70%Z); Sample.post 2 5 (Some 70%Z)]
    [Sample.trade 1 5 (Some 70%Z)]
    [Sample.log 3 None None (Some 70%Z)].

Definition long_content : jsstring := List.repeat 97 200.

Definition long_post : BotPost.t :=
  {| BotPost.id := 4; BotPost.botId := 5;
     BotPost.content := Some long_content;
     BotPost.postType := lit "reply"; BotPost.tweetId := Some (lit "1790");
     BotPost.status := lit "posted"; BotPost.createdAt := Some 10%Z |}.

Definition long_post_db : Database := Sample.database [long_post] [] [].

End SampleMore.

(** ** The other readers of [DatabaseStorage] *)

(** Rows read by the functions below; as above, only the columns the code
    touches are kept. *)
Module Bot.
Record t := {
  id : Z;
  userId : Z;
  botName : Js.jsstring;
  status : Js.jsstring;
  createdAt : option Z;
}.
End Bot.

Module WalletRow.
Record t := { botId : Z; publicAddress : Js.jsstring }.
End WalletRow.

Module XNameRow.
Record t := {
  botId : Z;
  xUsername : option Js.jsstring;
  xProfileImageUrl : option Js.jsstring;
}.
End XNameRow.

(** The database handle with the further queries of [getGlobalActivity],
    [getRecentActivityByUser], [getAllBots] and
    [getBotsByUserWithDetails]. *)
Record FullDatabase := {
  core :> Database;
  (* db.select({id, botName}).from(bots).where(eq(bots.userId, userId)) *)
  bots_named_by_user : Z -> list BotRow.t;
  (* db.select().from(auditLogs).where(inArray(auditLogs.botId, ids))
       .orderBy(desc(auditLogs.createdAt)).limit(n) *)
  auditLogs_of_bots : gset Z -> Z -> list AuditLog.t;
  (* db.select().from(bots).where(eq(bots.userId, userId))
       .orderBy(desc(bots.createdAt)) *)
  bots_by_user : Z -> list Bot.t;
  (* db.select().from(bots).orderBy(desc(bots.createdAt)).limit(n) *)
  recent_bots : Z -> list Bot.t;
  (* db.select({botId, publicAddress}).from(botWallets)
       .where(inArray(botWallets.botId, ids)) *)
  botWallets_inArray : gset Z -> list WalletRow.t;
  (* db.select({botId, xUsername, xProfileImageUrl}).from(botXAccounts)
       .where(inArray(botXAccounts.botId, ids)) *)
  botXNames_inArray : gset Z -> list XNameRow.t;
}.

Module Readers.
Import Js Storage.

(** [x?.field || null] for a looked-up row with a nullable string field. *)
Definition field_or_null {R} (row : option R) (field : R -> option jsstring)
    : option jsstring :=
  match row with
  | Some r => or_null (Some (field r))
  | None => None
  end.

(** An audit log with the names added by [getGlobalActivity]. *)
Module GlobalItem.
Record t := {
  log : AuditLog.t;
  botName : jsstring;
  ownerUsername : jsstring;
}.
End GlobalItem.

Definition getGlobalActivity (db : Database) (limit : Z) : list GlobalItem.t :=
  let logs := recent_auditLogs db limit in
  if Nat.eqb (length logs) 0 then []
  else
    let botIds : gset Z := list_to_set (omap AuditLog.botId logs) in
    let userIds : gset Z := list_to_set (omap AuditLog.userId logs) in
    let allBotsList :=
      if decide (botIds = ∅) then [] else bots_inArray db botIds in
    let allUsers :=
      if decide (userIds = ∅) then [] else users_inArray db userIds in
    let botNameMap : gmap Z jsstring :=
      foldl (fun m b => <[BotRow.id b := BotRow.botName b]> m) ∅ allBotsList in
    let userMap : gmap Z jsstring :=
      foldl (fun m u => <[UserRow.id u := UserRow.username u]> m) ∅ allUsers in
    (fun log =>
       {| GlobalItem.log := log;
          GlobalItem.botName :=
            if truthy_num (AuditLog.botId log)
            then or_default (botNameMap !! default 0%Z (AuditLog.botId log)) Unknown
            else System;
          GlobalItem.ownerUsername :=
            if truthy_num (AuditLog.userId log)
            then or_default (userMap !! default 0%Z (AuditLog.userId log)) Unknown
            else System |}) <$> logs.

(** An audit log with the bot name added by [getRecentActivityByUser]. *)
Module UserItem.
Record t := {
  log : AuditLog.t;
  botName : jsstring;
}.
End UserItem.

Definition getRecentActivityByUser (db : FullDatabase) (userId : Z) (limit : Z)
    : list UserItem.t :=
  let userBots := bots_named_by_user db userId in
  if Nat.eqb (length userBots) 0 then []
  else
    let botIds : gset Z := list_to_set (BotRow.id <$> userBots) in
    let botNameMap : gmap Z jsstring :=
      foldl (fun m b => <[BotRow.id b := BotRow.botName b]> m) ∅ userBots in
    let logs := auditLogs_of_bots db botIds limit in
    (fun log =>
       {| UserItem.log := log;
          UserItem.botName :=
            if truthy_num (AuditLog.botId log)
            then or_default (botNameMap !! default 0%Z (AuditLog.botId log)) Unknown
            else Unknown |}) <$> logs.

(** A bot with what [getAllBots] adds. *)
Module ListedBot.
Record t := {
  bot : Bot.t;
  ownerUsername : jsstring;
  walletAddress : option jsstring;
  xUsername : option jsstring;
  xProfileImageUrl : option jsstring;
}.
End ListedBot.

Definition walletMap_of (wallets : list WalletRow.t) : gmap Z jsstring :=
  foldl (fun m w => <[WalletRow.botId w := WalletRow.publicAddress w]> m) ∅ wallets.

Definition xMap_of (xAccounts : list XNameRow.t) : gmap Z XNameRow.t :=
  foldl (fun m x => <[XNameRow.botId x := x]> m) ∅ xAccounts.

Definition getAllBots (db : FullDatabase) (limit : Z) : list ListedBot.t :=
  let allBotsList := recent_bots db limit in
  if Nat.eqb (length allBotsList) 0 then []
  else
    let userIds : gset Z := list_to_set (Bot.userId <$> allBotsList) in
    let allUsers := users_inArray db userIds in
    let userMap : gmap Z jsstring :=
      foldl (fun m u => <[UserRow.id u := UserRow.username u]> m) ∅ allUsers in
    let botIds : gset Z := list_to_set (Bot.id <$> allBotsList) in
    let walletMap := walletMap_of (botWallets_inArray db botIds) in
    let xMap := xMap_of (botXNames_inArray db botIds) in
    (fun bot =>
       {| ListedBot.bot := bot;
          ListedBot.ownerUsername := or_default (userMap !! Bot.userId bot) Unknown;
          ListedBot.walletAddress := or_null (Some <$> walletMap !! Bot.id bot);
          ListedBot.xUsername :=
            field_or_null (xMap !! Bot.id bot) XNameRow.xUsername;
          ListedBot.xProfileImageUrl :=
            field_or_null (xMap !! Bot.id bot) XNameRow.xProfileImageUrl |})
    <$> allBotsList.

(** A bot with what [getBotsByUserWithDetails] adds. *)
Module DetailedBot.
Record t := {
  bot : Bot.t;
  walletAddress : option jsstring;
  xUsername : option jsstring;
  xProfileImageUrl : option jsstring;
  solBalance : jsstring;
}.
End DetailedBot.

Definition getBotsByUserWithDetails (db : FullDatabase) (userId : Z)
    : list DetailedBot.t :=
  let userBots := bots_by_user db userId in
  if Nat.eqb (length userBots) 0 then []
  else
    let botIds : gset Z := list_to_set (Bot.id <$> userBots) in
    let walletMap := walletMap_of (botWallets_inArray db botIds) in
    let xMap := xMap_of (botXNames_inArray db botIds) in
    (fun bot =>
       {| DetailedBot.bot := bot;
          DetailedBot.walletAddress := or_null (Some <$> walletMap !! Bot.id bot);
          DetailedBot.xUsername :=
            field_or_null (xMap !! Bot.id bot) XNameRow.xUsername;
          DetailedBot.xProfileImageUrl :=
            field_or_null (xMap !! Bot.id bot) XNameRow.xProfileImageUrl;
          DetailedBot.solBalance := lit "0.000000000" |})
    <$> userBots.

End Readers.

(** Sample databases for the readers. *)
Module ReaderSample.
Import Js.

Definition full (logs : list AuditLog.t) (bots : list Bot.t)
    (wallets : list WalletRow.t) (xs : list XNameRow.t) : FullDatabase :=
  {| core := Sample.database [] [] logs;
     bots_named_by_user := fun uid =>
       List.filter (fun b => (BotRow.userId b =? uid)%Z) Sample.bots_table;
     auditLogs_of_bots := fun ids _ =>
       List.filter (fun l => match AuditLog.botId l with
                             | Some i => bool_decide (i ∈ ids)
                             | None => false
                             end) logs;
     bots_by_user := fun uid => List.filter (fun b => (Bot.userId b =? uid)%Z) bots;
     recent_bots := fun _ => bots;
     botWallets_inArray := fun ids =>
       List.filter (fun w => bool_decide (WalletRow.botId w ∈ ids)) wallets;
     botXNames_inArray := fun ids =>
       List.filter (fun x => bool_decide (XNameRow.botId x ∈ ids)) xs |}.

Definition molty : Bot.t :=
  {| Bot.id := 5; Bot.userId := 1; Bot.botName := lit "molty";
     Bot.status := lit "active"; Bot.createdAt := Some 5%Z |}.

Definition orphan : Bot.t :=
  {| Bot.id := 6; Bot.userId := 2; Bot.botName := lit "orphan";
     Bot.status := lit "paused"; Bot.createdAt := Some 4%Z |}.

Definition db : FullDatabase :=
  full [Sample.log 9 None None (Some 60%Z); Sample.log 8 (Some 5%Z) (Some 1%Z) (Some 40%Z)]
       [molty; orphan]
       [ {| WalletRow.botId := 5; WalletRow.publicAddress := lit "So1anaAddr" |} ]
       [ {| XNameRow.botId := 5; XNameRow.xUsername := Some (lit "molty_x");
            XNameRow.xProfileImageUrl := None |} ].

End ReaderSample.

(** ** The X account of a bot *)

(** [getBotXAccount], [upsertBotXAccount] and [deleteBotXAccount] read and
    write the table [botXAccounts].  The table is the list of its rows with
    the next value of the serial key; a row is the key and the columns
    [upsertBotXAccount] is given. *)
Module XAccount.
Import Js.

Record data := {
  botId : Z;
  xUserId : jsstring;
  xUsername : jsstring;
  xProfileImageUrl : option jsstring;
  encryptedAccessToken : jsstring;
  encryptedRefreshToken : jsstring;
  tokenExpiresAt : Z;
}.

Record t := {
  id : Z;
  fields : data;
}.

Record table := {
  rows : list t;
  next_id : Z;
}.

(** [eq(botXAccounts.botId, botId)] *)
Definition where_botId (b : Z) (r : t) : bool := (botId (fields r) =? b)%Z.

Definition getBotXAccount (tbl : table) (b : Z) : option t :=
  List.head (List.filter (where_botId b) (rows tbl)).

(** The [set({...})] of the update: every column given but [botId]. *)
Definition set_columns (d : data) (r : t) : t :=
  {| id := id r;
     fields := {| botId := botId (fields r);
                  xUserId := xUserId d;
                  xUsername := xUsername d;
                  xProfileImageUrl := xProfileImageUrl d;
                  encryptedAccessToken := encryptedAccessToken d;
                  encryptedRefreshToken := encryptedRefreshToken d;
                  tokenExpiresAt := tokenExpiresAt d |} |}.

(** The new table and the row returned. *)
Definition upsertBotXAccount (tbl : table) (d : data) : table * option t :=
  match getBotXAccount tbl (botId d) with
  | Some existing =>
      let rows' :=
        List.map (fun r => if where_botId (botId d) r then set_columns d r else r)
                 (rows tbl) in
      ({| rows := rows'; next_id := next_id tbl |},
       List.head (List.filter (where_botId (botId d)) rows'))
  | None =>
      let account := {| id := next_id tbl; fields := d |} in
      ({| rows := rows tbl ++ [account]; next_id := (next_id tbl + 1)%Z |},
       Some account)
  end.

Definition deleteBotXAccount (tbl : table) (b : Z) : table :=
  {| rows := List.filter (fun r => negb (where_botId b r)) (rows tbl);
     next_id := next_id tbl |}.

(** Sample rows. *)
Definition tokens (b : Z) (name : string) (expires : Z) : data :=
  {| botId := b; xUserId := lit "42"; xUsername := lit name;
     xProfileImageUrl := None; encryptedAccessToken := lit "aa:bb:cc";
     encryptedRefreshToken := lit "dd:ee:ff"; tokenExpiresAt := expires |}.

Definition sample_table : table :=
  {| rows := [ {| id := 1; fields := tokens 5 "molty_x" 1000 |};
               {| id := 2; fields := tokens 6 "other_x" 2000 |} ];
     next_id := 3 |}.

End XAccount.

(** ** Analytics *)

(** JavaScript numbers that need not be integers: the floating-point
    operations [AnalyticsService] uses, left abstract. *)
Record JsNumber := {
  number : Type;
  of_Z : Z -> number;
  fadd : number -> number -> number;
  fmul : number -> number -> number;
  fdiv : number -> number -> number;
  parseFloat : Js.jsstring -> number;
}.

(** The queries of [AnalyticsService]. *)
Record AnalyticsDatabase := {
  (* db.select().from(trades).where(and(eq(trades.botId, botId),
       eq(trades.status, "completed"), sql`createdAt >= ${cutoff}`)) *)
  completed_trades_since : Z -> Z -> list Trade.t;
  (* db.select().from(trades).where(eq(trades.botId, botId))
       .orderBy(desc(trades.createdAt)) *)
  trades_of_bot : Z -> list Trade.t;
  (* db.select().from(bots) *)
  all_bots : list Bot.t;
  (* db.select().from(trades).where(eq(trades.status, "completed")) *)
  all_completed_trades : list Trade.t;
  (* db.select().from(users) *)
  all_users : list UserRow.t;
}.

Module Analytics.
Import Js.

Section service.
Variable F : JsNumber.
Variable db : AnalyticsDatabase.

Record Volume := {
  buyVolume : number F;
  sellVolume : number F;
  totalVolume : number F;
}.

(** [parseFloat(trade.amountSol || "0")] *)
Definition amountOf (trade : Trade.t) : number F :=
  parseFloat F (or_default (Trade.amountSol trade) (lit "0")).

Definition isBuy (trade : Trade.t) : bool :=
  str_eqb (Trade.tradeType trade) (lit "buy").

(** One turn of the loop over the trades. *)
Definition addTrade (acc : number F * number F) (trade : Trade.t)
    : number F * number F :=
  let amount := amountOf trade in
  if isBuy trade then (fadd F (fst acc) amount, snd acc)
  else (fst acc, fadd F (snd acc) amount).

(** [get24hVolume(botId)], [now] being [Date.now()]. *)
Definition get24hVolume (now : Z) (botId : Z) : Volume :=
  let twentyFourHoursAgo := (now - 24 * 60 * 60 * 1000)%Z in
  let botTrades := completed_trades_since db botId twentyFourHoursAgo in
  let sums := List.fold_left addTrade botTrades (of_Z F 0, of_Z F 0) in
  {| buyVolume := fst sums;
     sellVolume := snd sums;
     totalVolume := fadd F (fst sums) (snd sums) |}.

Record Performance := {
  totalTrades : nat;
  successfulTrades : nat;
  failedTrades : nat;
  successRate : number F;
}.

Definition hasStatus (s : string) (trade : Trade.t) : bool :=
  str_eqb (Trade.status trade) (lit s).

Definition getBotPerformance (botId : Z) : Performance :=
  let botTrades := trades_of_bot db botId in
  let totalTrades := length botTrades in
  let successfulTrades := length (List.filter (hasStatus "completed") botTrades) in
  let failedTrades := length (List.filter (hasStatus "failed") botTrades) in
  {| totalTrades := totalTrades;
     successfulTrades := successfulTrades;
     failedTrades := failedTrades;
     successRate :=
       if Nat.ltb 0 totalTrades
       then fmul F (fdiv F (of_Z F (Z.of_nat successfulTrades))
                           (of_Z F (Z.of_nat totalTrades)))
                   (of_Z F 100)
       else of_Z F 0 |}.

Record PlatformStats := {
  totalAgents : nat;
  activeAgents : nat;
  stats_totalTrades : nat;
  totalSolVolume : number F;
  totalUsers : nat;
}.

Definition getPlatformStats : PlatformStats :=
  let allBots := all_bots db in
  let allTrades := all_completed_trades db in
  let allUsers := all_users db in
  let totalSolVolume :=
    List.fold_left (fun acc t => fadd F acc (amountOf t)) allTrades (of_Z F 0) in
  {| totalAgents := length allBots;
     activeAgents :=
       length (List.filter (fun b => str_eqb (Bot.status b) (lit "active")) allBots);
     stats_totalTrades := length allTrades;
     totalSolVolume := totalSolVolume;
     totalUsers := length allUsers |}.

End service.

End Analytics.

(** * Properties *)

(** ** Strings, sorting and slicing *)

Module JsFacts.
Import Js.

Lemma lit_inj s1 s2 : lit s1 = lit s2 -> s1 = s2.
Proof.
  unfold lit. revert s2.
  induction s1 as [|a s1 IH]; intros [|b s2] H; simpl in H; try discriminate.
  - reflexivity.
  - injection H as Hab Hrest.
    apply (f_equal ascii_of_N) in Hab. rewrite !ascii_N_embedding in Hab.
    f_equal; auto.
Qed.

Lemma number_to_string_inj n m :
  number_to_string n = number_to_string m -> n = m.
Proof.
  unfold number_to_string. intros H. apply lit_inj in H.
  apply (f_equal NilEmpty.int_of_string) in H.
  rewrite !NilEmpty.isi in H.
  injection H as H. now apply DecimalZ.to_int_inj.
Qed.

Lemma str_eqb_eq s1 s2 : str_eqb s1 s2 = true <-> s1 = s2.
Proof.
  revert s2. induction s1 as [|a s1 IH]; intros [|b s2]; simpl;
    try (split; [discriminate | discriminate]); try tauto.
  rewrite andb_true_iff, N.eqb_eq, IH. split.
  - intros [-> ->]. reflexivity.
  - intros H. injection H as -> ->. auto.
Qed.

(** *** [split] *)

Lemma split_nonempty sep s : split sep s <> [].
Proof.
  destruct s as [|c rest]; simpl; [discriminate|].
  destruct (c =? sep); [discriminate|].
  destruct (split sep rest); discriminate.
Qed.

Lemma split_no_sep sep s : ~ In sep s -> split sep s = [s].
Proof.
  induction s as [|c rest IH]; simpl; intros Hn; [reflexivity|].
  destruct (N.eqb_spec c sep) as [->|Hne]; [tauto|].
  rewrite IH by tauto. reflexivity.
Qed.

Lemma split_app_sep sep a b :
  ~ In sep a -> split sep (a ++ sep :: b) = a :: split sep b.
Proof.
  induction a as [|c a IH]; simpl; intros Hn.
  - rewrite N.eqb_refl. reflexivity.
  - destruct (N.eqb_spec c sep) as [->|Hne]; [tauto|].
    rewrite IH by tauto. reflexivity.
Qed.

(** *** [slice(0, limit)] *)

Lemma slice0_firstn {A} limit (l : list A) :
  exists n, slice0 limit l = firstn n l.
Proof. unfold slice0. destruct (limit <? 0)%Z; eauto. Qed.

Lemma slice0_length {A} limit (l : list A) :
  (0 <= limit)%Z -> (Z.of_nat (length (slice0 limit l)) <= limit)%Z.
Proof.
  intros H. unfold slice0.
  destruct (Z.ltb_spec limit 0); [lia|].
  rewrite length_firstn. lia.
Qed.

Lemma slice0_all {A} limit (l : list A) :
  (Z.of_nat (length l) <= limit)%Z -> slice0 limit l = l.
Proof.
  intros H. unfold slice0.
  destruct (Z.ltb_spec limit 0); [lia|].
  apply firstn_all2. lia.
Qed.

Lemma In_firstn {A} n (l : list A) x : In x (firstn n l) -> In x l.
Proof.
  intros H. rewrite <- (firstn_skipn n l). apply in_or_app. now left.
Qed.

Lemma slice0_incl {A} limit (l : list A) x : In x (slice0 limit l) -> In x l.
Proof.
  destruct (slice0_firstn limit l) as [n ->]. apply In_firstn.
Qed.

Lemma NoDup_firstn {A} n (l : list A) : NoDup l -> NoDup (firstn n l).
Proof.
  intros H. eapply sublist_NoDup; [exact H | apply sublist_take].
Qed.

Lemma StronglySorted_firstn {A} (R : A -> A -> Prop) n l :
  StronglySorted R l -> StronglySorted R (firstn n l).
Proof.
  intros H. revert n. induction H as [|a l Hl IH Ha]; intros [|n]; simpl;
    try constructor; auto.
  rewrite List.Forall_forall in *. intros x Hx. apply Ha.
  eapply In_firstn; eauto.
Qed.

Lemma StronglySorted_lookup {A} (R : A -> A -> Prop) (l : list A) i j a b :
  StronglySorted R l -> (i < j)%nat ->
  l !! i = Some a -> l !! j = Some b -> R a b.
Proof.
  intros H. revert i j. induction H as [|x l Hl IH Hx]; intros i j Hij Ha Hb.
  - destruct i; discriminate.
  - destruct j as [|j]; [lia|]. simpl in Hb.
    destruct i as [|i]; simpl in Ha.
    + injection Ha as ->. rewrite Forall_forall in Hx.
      apply Hx. eapply list_elem_of_lookup_2; eauto.
    + apply (IH i j); auto. lia.
Qed.

(** *** [sort] *)

Lemma sort_insert_perm {A} (cmp : A -> A -> Z) x l :
  Permutation (sort_insert cmp x l) (x :: l).
Proof.
  induction l as [|y l IH]; simpl; [reflexivity|].
  destruct (cmp x y <=? 0)%Z; [reflexivity|].
  rewrite IH. apply perm_swap.
Qed.

Lemma sort_perm {A} (cmp : A -> A -> Z) l : Permutation (sort cmp l) l.
Proof.
  induction l as [|x l IH]; simpl; [reflexivity|].
  unfold sort in *. simpl. rewrite sort_insert_perm. now constructor.
Qed.

Section descending.
Context {A : Type} (key : A -> Z) (cmp : A -> A -> Z).
Hypothesis cmp_key : forall a b, cmp a b = (key b - key a)%Z.

Let desc := descending_by key.

Lemma sort_insert_desc x l :
  StronglySorted desc l -> StronglySorted desc (sort_insert cmp x l).
Proof using cmp_key.
  induction 1 as [|y l Hl IH Hy]; simpl.
  - repeat constructor.
  - rewrite cmp_key. destruct (Z.leb_spec (key y - key x) 0).
    + constructor; [constructor; auto|].
      constructor; [unfold desc, descending_by; lia|].
      rewrite List.Forall_forall in *. intros z Hz.
      specialize (Hy z Hz). unfold desc, descending_by in *. lia.
    + constructor; auto.
      rewrite List.Forall_forall in *. intros z Hz.
      apply (Permutation_in _ (sort_insert_perm cmp x l)) in Hz.
      destruct Hz as [<-|Hz]; [unfold desc, descending_by; lia | auto].
Qed.

Lemma sort_desc l : StronglySorted (descending_by key) (sort cmp l).
Proof using cmp_key.
  induction l as [|x l IH]; [constructor|].
  apply sort_insert_desc, IH.
Qed.
End descending.

End JsFacts.

(** ** The aggregator *)

Module StorageFacts.
Import Js Storage JsFacts.

Lemma list_to_set_empty_inv (l : list Z) :
  list_to_set l = (∅ : gset Z) -> l = [].
Proof.
  destruct l as [|x l]; [reflexivity|]. intros H.
  assert (Hx : x ∈ (list_to_set (x :: l) : gset Z))
    by (apply elem_of_list_to_set; left).
  rewrite H in Hx. set_solver.
Qed.

(** No bot id is mentioned exactly when there are no posts, no trades, and
    every log is a system-level one. *)
Lemma allBotIds_empty F :
  allBotIds F = ∅ <->
  recentPosts F = [] /\ recentTrades F = [] /\
  Forall (fun l => AuditLog.botId l = None) (recentLogs F).
Proof.
  unfold allBotIds. split.
  - intros H. apply list_to_set_empty_inv in H.
    apply app_eq_nil in H as [Hp H]. apply app_eq_nil in H as [Ht Hl].
    apply fmap_nil_inv in Hp. apply fmap_nil_inv in Ht.
    repeat split; auto.
    induction (recentLogs F) as [|l ls IH]; [constructor|].
    simpl in Hl. destruct (AuditLog.botId l) eqn:E; [discriminate|].
    constructor; auto.
  - intros (-> & -> & Hl). simpl.
    replace (omap AuditLog.botId (recentLogs F)) with (@nil Z); [reflexivity|].
    induction Hl as [|l ls E _ IH]; [reflexivity|].
    simpl. rewrite E. exact IH.
Qed.

(** The early return. *)
Lemma getCombinedActivity_short_circuit db limit :
  allBotIds (fetch db limit) = ∅ -> getCombinedActivity db limit = [].
Proof. intros H. unfold getCombinedActivity. now rewrite decide_True. Qed.

Lemma getCombinedActivity_unfold db limit :
  allBotIds (fetch db limit) <> ∅ ->
  getCombinedActivity db limit =
  slice0 limit
    (sort byCreatedAtDesc
       (normalize (resolve db (allBotIds (fetch db limit))) (fetch db limit))).
Proof. intros H. unfold getCombinedActivity. now rewrite decide_False. Qed.

Lemma normalize_length L F :
  length (normalize L F) =
  (length (recentPosts F) + length (recentTrades F) + length (recentLogs F))%nat.
Proof. unfold normalize. rewrite !length_app, !length_fmap. lia. Qed.

(** Each fetched record has its item in the normalized sequence. *)
Lemma normalize_complete L F :
  (forall p, p ∈ recentPosts F -> postItem L p ∈ normalize L F) /\
  (forall t, t ∈ recentTrades F -> tradeItem L t ∈ normalize L F) /\
  (forall l, l ∈ recentLogs F -> logItem L l ∈ normalize L F).
Proof.
  unfold normalize. repeat split; intros x Hx; rewrite !elem_of_app.
  - left. now apply list_elem_of_fmap_2.
  - right; left. now apply list_elem_of_fmap_2.
  - right; right. now apply list_elem_of_fmap_2.
Qed.

(** Where the items of the result come from. *)
Lemma getCombinedActivity_elem db limit item :
  item ∈ getCombinedActivity db limit ->
  let F := fetch db limit in
  let L := resolve db (allBotIds F) in
  (exists p, p ∈ recentPosts F /\ item = postItem L p) \/
  (exists t, t ∈ recentTrades F /\ item = tradeItem L t) \/
  (exists l, l ∈ recentLogs F /\ item = logItem L l).
Proof.
  intros H F L. unfold getCombinedActivity in H. fold F in H.
  destruct (decide (allBotIds F = ∅)); [set_solver|].
  fold L in H. apply list_elem_of_In, slice0_incl, list_elem_of_In in H.
  rewrite (sort_perm byCreatedAtDesc) in H.
  unfold normalize in H. rewrite !elem_of_app, !list_elem_of_fmap in H.
  destruct H as [(p & -> & Hp) | [(t & -> & Ht) | (l & -> & Hl)]]; eauto.
Qed.

(** When the limit does not cut the merged feed, the result holds exactly
    the normalized items. *)
Lemma getCombinedActivity_all db limit :
  let F := fetch db limit in
  let L := resolve db (allBotIds F) in
  allBotIds F <> ∅ ->
  (Z.of_nat (length (normalize L F)) <= limit)%Z ->
  getCombinedActivity db limit ≡ₚ normalize L F.
Proof.
  intros F L Hne Hlen. rewrite getCombinedActivity_unfold by exact Hne.
  fold F L. rewrite slice0_all.
  - apply sort_perm.
  - now rewrite (Permutation_length (sort_perm byCreatedAtDesc _)).
Qed.

(** *** Identifiers *)

Lemma id_postItem L p : id (postItem L p) = lit "tweet-" ++ number_to_string (BotPost.id p).
Proof. reflexivity. Qed.
Lemma id_tradeItem L t : id (tradeItem L t) = lit "trade-" ++ number_to_string (Trade.id t).
Proof. reflexivity. Qed.
Lemma id_logItem L l : id (logItem L l) = lit "log-" ++ number_to_string (AuditLog.id l).
Proof. reflexivity. Qed.

Lemma NoDup_prefixed (pre : jsstring) {A} (key : A -> Z) (l : list A) :
  NoDup (key <$> l) -> NoDup ((fun x => pre ++ number_to_string (key x)) <$> l).
Proof.
  intros H.
  change (fun x => pre ++ number_to_string (key x))
    with ((fun n => pre ++ number_to_string n) ∘ key).
  rewrite list_fmap_compose. apply NoDup_fmap_2; [|exact H].
  intros n m E. now apply app_inv_head, number_to_string_inj in E.
Qed.

Lemma prefixes_distinct a b :
  lit "tweet-" ++ a <> lit "trade-" ++ b /\
  lit "tweet-" ++ a <> lit "log-" ++ b /\
  lit "trade-" ++ a <> lit "log-" ++ b.
Proof. repeat split; intros H; discriminate H. Qed.

(** The identifiers of the normalized items are pairwise distinct as soon
    as each batch has pairwise distinct row identifiers. *)
Lemma normalize_ids_NoDup L F :
  NoDup (BotPost.id <$> recentPosts F) ->
  NoDup (Trade.id <$> recentTrades F) ->
  NoDup (AuditLog.id <$> recentLogs F) ->
  NoDup (id <$> normalize L F).
Proof.
  intros Hp Ht Hl. unfold normalize. rewrite !fmap_app, <- !list_fmap_compose.
  apply NoDup_app. split; [|split; [|apply NoDup_app; split; [|split]]].
  - apply (NoDup_prefixed (lit "tweet-") BotPost.id), Hp.
  - intros s Hs Hs'. apply list_elem_of_fmap in Hs as (p & -> & _).
    apply elem_of_app in Hs' as [Hs'|Hs'];
      apply list_elem_of_fmap in Hs' as (x & E & _); cbn [compose] in E;
      rewrite id_postItem in E.
    + rewrite id_tradeItem in E. now apply prefixes_distinct in E.
    + rewrite id_logItem in E. now apply prefixes_distinct in E.
  - apply (NoDup_prefixed (lit "trade-") Trade.id), Ht.
  - intros s Hs Hs'. apply list_elem_of_fmap in Hs as (p & -> & _).
    apply list_elem_of_fmap in Hs' as (x & E & _); cbn [compose] in E.
    rewrite id_tradeItem, id_logItem in E. now apply prefixes_distinct in E.
  - apply (NoDup_prefixed (lit "log-") AuditLog.id), Hl.
Qed.

Lemma getCombinedActivity_ids_NoDup db limit :
  let F := fetch db limit in
  NoDup (BotPost.id <$> recentPosts F) ->
  NoDup (Trade.id <$> recentTrades F) ->
  NoDup (AuditLog.id <$> recentLogs F) ->
  NoDup (id <$> getCombinedActivity db limit).
Proof.
  intros F Hp Ht Hl. unfold getCombinedActivity. fold F.
  destruct (decide (allBotIds F = ∅)); [constructor|].
  destruct (slice0_firstn limit
              (sort byCreatedAtDesc (normalize (resolve db (allBotIds F)) F)))
    as [k ->].
  rewrite fmap_take. apply NoDup_firstn.
  rewrite (sort_perm byCreatedAtDesc). now apply normalize_ids_NoDup.
Qed.

(** *** The claims on the aggregator *)




(** C2, as stated, fails: the item of an audit log has type [system] and
    an identifier that starts with [log-], so it is not the type tag, a
    hyphen and a number. *)
Lemma log_id_is_not_type_dash_id :
  ~ (forall item, item ∈ getCombinedActivity Sample.one_log_db 10 ->
       exists n : Z,
         id item = ItemType_tag (type item) ++ lit "-" ++ number_to_string n).
Proof.
  intros H.
  destruct (H (logItem (resolve Sample.one_log_db {[ 5%Z ]})
                 (Sample.log 9 (Some 5%Z) None (Some 60%Z)))) as [n Hn].
  - vm_compute. left.
  - discriminate Hn.
Qed.

(** C2, amended.  Provided the rows of each batch have pairwise distinct
    identifiers, the identifiers of the returned items are pairwise
    distinct, and each is [tweet-n] for a post, [trade-n] for a trade and
    [log-n] for an audit log (whose type tag is [system]), [n] being the
    identifier of the source row. *)
Theorem item_ids_unique_and_formed db limit :
  let F := fetch db limit in
  NoDup (BotPost.id <$> recentPosts F) ->
  NoDup (Trade.id <$> recentTrades F) ->
  NoDup (AuditLog.id <$> recentLogs F) ->
  NoDup (id <$> getCombinedActivity db limit) /\
  forall item, item ∈ getCombinedActivity db limit ->
    (exists p, p ∈ recentPosts F /\ type item = tweet /\
               id item = lit "tweet-" ++ number_to_string (BotPost.id p)) \/
    (exists t, t ∈ recentTrades F /\ type item = trade /\
               id item = lit "trade-" ++ number_to_string (Trade.id t)) \/
    (exists l, l ∈ recentLogs F /\ type item = system /\
               id item = lit "log-" ++ number_to_string (AuditLog.id l)).
Proof.
  intros F Hp Ht Hl. split.
  - now apply getCombinedActivity_ids_NoDup.
  - intros item Hitem. apply getCombinedActivity_elem in Hitem.
    destruct Hitem as [(p & Hin & ->) | [(t & Hin & ->) | (l & Hin & ->)]];
      [left | right; left | right; right]; eauto.
Qed.

Lemma item_ids_unique_and_formed_witness :
  NoDup (id <$> getCombinedActivity Sample.mixed_db 10) /\
  forall item, item ∈ getCombinedActivity Sample.mixed_db 10 ->
    (exists p, p ∈ recentPosts (fetch Sample.mixed_db 10) /\ type item = tweet /\
               id item = lit "tweet-" ++ number_to_string (BotPost.id p)) \/
    (exists t, t ∈ recentTrades (fetch Sample.mixed_db 10) /\ type item = trade /\
               id item = lit "trade-" ++ number_to_string (Trade.id t)) \/
    (exists l, l ∈ recentLogs (fetch Sample.mixed_db 10) /\ type item = system /\
               id item = lit "log-" ++ number_to_string (AuditLog.id l)).
Proof.
  apply (item_ids_unique_and_formed Sample.mixed_db 10);
    refine (bool_decide_unpack _ _); vm_compute; exact I.
Defined.

Lemma timeOf_createdAt a : timeOf a = default 0%Z (createdAt a).
Proof. unfold timeOf. now destruct (createdAt a). Qed.

(** C3.  For a limit [L >= 0] the feed has at most [L] items; an item that
    comes later in the feed never has a later creation time than one that
    comes earlier, a missing creation time being read as 0; hence an item
    without creation time comes after every item whose creation time is
    positive.  The creation time of an item is that of the fetched record
    it was built from. *)
Theorem getCombinedActivity_bounded_sorted db limit :
  (0 <= limit)%Z ->
  (Z.of_nat (length (getCombinedActivity db limit)) <= limit)%Z /\
  (forall i j a b,
      getCombinedActivity db limit !! i = Some a ->
      getCombinedActivity db limit !! j = Some b ->
      (i < j)%nat ->
      (default 0 (createdAt b) <= default 0 (createdAt a))%Z) /\
  (forall i j a b t,
      getCombinedActivity db limit !! i = Some a ->
      getCombinedActivity db limit !! j = Some b ->
      createdAt a = None -> createdAt b = Some t -> (0 < t)%Z ->
      (j < i)%nat) /\
  (forall item,
      item ∈ getCombinedActivity db limit ->
      (exists p, p ∈ recentPosts (fetch db limit) /\
                 createdAt item = BotPost.createdAt p) \/
      (exists t, t ∈ recentTrades (fetch db limit) /\
                 createdAt item = Trade.createdAt t) \/
      (exists l, l ∈ recentLogs (fetch db limit) /\
                 createdAt item = AuditLog.createdAt l)).
Proof.
  intros Hlimit.
  assert (Hsorted : StronglySorted (descending_by timeOf)
                      (getCombinedActivity db limit)).
  { unfold getCombinedActivity.
    destruct (decide (allBotIds (fetch db limit) = ∅)); [constructor|].
    destruct (slice0_firstn limit
                (sort byCreatedAtDesc
                   (normalize (resolve db (allBotIds (fetch db limit)))
                      (fetch db limit)))) as [k ->].
    apply StronglySorted_firstn, (sort_desc timeOf). reflexivity. }
  assert (Horder : forall i j a b,
             getCombinedActivity db limit !! i = Some a ->
             getCombinedActivity db limit !! j = Some b ->
             (i < j)%nat ->
             (default 0 (createdAt b) <= default 0 (createdAt a))%Z).
  { intros i j a b Hi Hj Hlt.
    pose proof (StronglySorted_lookup _ _ _ _ _ _ Hsorted Hlt Hi Hj) as Hd.
    unfold descending_by in Hd. now rewrite !timeOf_createdAt in Hd. }
  split; [|split; [exact Horder|split]].
  - unfold getCombinedActivity.
    destruct (decide (allBotIds (fetch db limit) = ∅)); [simpl; lia|].
    now apply slice0_length.
  - intros i j a b t Hi Hj Ha Hb Ht.
    destruct (Nat.lt_trichotomy i j) as [Hlt | [-> | Hgt]]; [| |exact Hgt].
    + pose proof (Horder i j a b Hi Hj Hlt) as Hd.
      rewrite Ha, Hb in Hd. cbn in Hd. lia.
    + rewrite Hi in Hj. injection Hj as ->. congruence.
  - intros item Hitem. apply getCombinedActivity_elem in Hitem.
    destruct Hitem as [(p & Hin & ->) | [(t & Hin & ->) | (l & Hin & ->)]];
      [left | right; left | right; right]; eauto.
Qed.

Lemma getCombinedActivity_bounded_sorted_witness :
  (Z.of_nat (length (getCombinedActivity Sample.mixed_db 3)) <= 3)%Z /\
  (forall i j a b,
      getCombinedActivity Sample.mixed_db 3 !! i = Some a ->
      getCombinedActivity Sample.mixed_db 3 !! j = Some b ->
      (i < j)%nat ->
      (default 0 (createdAt b) <= default 0 (createdAt a))%Z).
Proof.
  pose proof (getCombinedActivity_bounded_sorted Sample.mixed_db 3) as H.
  destruct H as (H1 & H2 & _); [lia|]. split; assumption.
Defined.

(** C8.  A trade whose bot is missing from the bot lookup still has its
    item in the feed being built, named "Unknown" and owned by "Unknown";
    the feed is the sorted and truncated sequence of these items, and
    contains the item whenever the limit does not cut the sequence.  The
    item of an audit log without bot is named "System". *)
Theorem dangling_trade_and_system_log db limit :
  let F := fetch db limit in
  let L := resolve db (allBotIds F) in
  (forall t, t ∈ recentTrades F -> botMap L !! Trade.botId t = None ->
     tradeItem L t ∈ normalize L F /\
     getCombinedActivity db limit
       = slice0 limit (sort byCreatedAtDesc (normalize L F)) /\
     ((Z.of_nat (length (normalize L F)) <= limit)%Z ->
        tradeItem L t ∈ getCombinedActivity db limit) /\
     botName (tradeItem L t) = Unknown /\
     ownerUsername (tradeItem L t) = Unknown) /\
  (forall l, l ∈ recentLogs F -> AuditLog.botId l = None ->
     botName (logItem L l) = System /\
     (allBotIds F <> ∅ -> logItem L l ∈ normalize L F)).
Proof.
  intros F L. split.
  - intros t Ht Hbot.
    assert (Hne : allBotIds F <> ∅).
    { intros E. apply allBotIds_empty in E as (_ & E & _).
      rewrite E in Ht. set_solver. }
    assert (Hin : tradeItem L t ∈ normalize L F)
      by now apply normalize_complete.
    repeat split.
    + exact Hin.
    + now apply getCombinedActivity_unfold.
    + intros Hlen.
      rewrite (getCombinedActivity_all db limit Hne Hlen). exact Hin.
    + unfold tradeItem. cbn [botName]. now rewrite Hbot.
    + unfold tradeItem. cbn [ownerUsername]. now rewrite Hbot.
  - intros l Hin Hl. split.
    + unfold logItem. cbn [botName]. now rewrite Hl.
    + intros _. now apply normalize_complete.
Qed.

Lemma dangling_trade_and_system_log_witness :
  botName (tradeItem (resolve Sample.mixed_db {[ 5%Z; 7%Z ]})
             (Sample.trade 1 7 (Some 70%Z))) = Unknown /\
  tradeItem (resolve Sample.mixed_db {[ 5%Z; 7%Z ]}) (Sample.trade 1 7 (Some 70%Z))
    ∈ getCombinedActivity Sample.mixed_db 10 /\
  botName (logItem (resolve Sample.mixed_db {[ 5%Z; 7%Z ]})
             (Sample.log 9 None None (Some 60%Z))) = System.
Proof.
  pose proof (dangling_trade_and_system_log Sample.mixed_db 10) as [Ht Hl].
  specialize (Ht (Sample.trade 1 7 (Some 70%Z))).
  specialize (Hl (Sample.log 9 None None (Some 60%Z))).
  destruct Ht as (_ & _ & Hin & Hname & _).
  - vm_compute. left.
  - vm_compute. reflexivity.
  - destruct Hl as [Hsys _].
    + vm_compute. left.
    + reflexivity.
    + split; [exact Hname|]. split; [|exact Hsys].
      apply Hin. vm_compute. discriminate.
Defined.

End StorageFacts.

(** ** Buffers *)

Module BufferFacts.
Import Js Buffer JsFacts.

Lemma to_N_lt b : Byte.to_N b < 256.
Proof. pose proof (Byte.to_N_bounded b). lia. Qed.

Lemma to_N_byte_of_N n : Byte.to_N (byte_of_N n) = n mod 256.
Proof.
  unfold byte_of_N. destruct (Byte.of_N (n mod 256)) as [b|] eqn:E.
  - now apply Byte.to_of_N.
  - apply Byte.of_N_None_iff in E.
    pose proof (N.mod_upper_bound n 256). lia.
Qed.

Lemma to_N_byte_of_N_small n : n < 256 -> Byte.to_N (byte_of_N n) = n.
Proof. intros H. rewrite to_N_byte_of_N. now apply N.mod_small. Qed.

Lemma byte_of_N_to_N b : byte_of_N (Byte.to_N b) = b.
Proof.
  unfold byte_of_N. rewrite N.mod_small by apply to_N_lt.
  now rewrite Byte.of_to_N.
Qed.

Lemma to_N_inj a b : Byte.to_N a = Byte.to_N b -> a = b.
Proof.
  intros H. rewrite <- (byte_of_N_to_N a), <- (byte_of_N_to_N b). now f_equal.
Qed.

(** *** Hexadecimal *)

Lemma unhex_hex_digit n : n < 16 -> unhex (hex_digit n) = Some n.
Proof.
  intros H. unfold hex_digit, unhex.
  destruct (N.ltb_spec n 10).
  - replace ((48 <=? 48 + n) && (48 + n <=? 57)) with true.
    + f_equal. lia.
    + symmetry. apply andb_true_iff. split; apply N.leb_le; lia.
  - replace ((48 <=? 87 + n) && (87 + n <=? 57)) with false.
    + replace ((97 <=? 87 + n) && (87 + n <=? 102)) with true.
      * f_equal. lia.
      * symmetry. apply andb_true_iff. split; apply N.leb_le; lia.
    + symmetry. apply andb_false_iff. right. apply N.leb_gt. lia.
Qed.

Lemma hex_digit_not_colon n : n < 16 -> hex_digit n <> 58.
Proof. unfold hex_digit. destruct (N.ltb_spec n 10); lia. Qed.

Lemma from_hex_toString_hex bs : from_hex (toString_hex bs) = bs.
Proof.
  induction bs as [|b bs IH]; [reflexivity|].
  pose proof (to_N_lt b) as Hb.
  cbn [toString_hex List.flat_map hex_of_byte app from_hex].
  fold (toString_hex bs).
  rewrite !unhex_hex_digit.
  - rewrite IH. f_equal.
    rewrite <- (byte_of_N_to_N b) at 3. f_equal.
    symmetry. apply N.div_mod. lia.
  - apply N.mod_upper_bound. lia.
  - apply N.Div0.div_lt_upper_bound. lia.
Qed.

Lemma toString_hex_no_colon bs : ~ In 58 (toString_hex bs).
Proof.
  induction bs as [|b bs IH]; [intros []|].
  pose proof (to_N_lt b) as Hb.
  cbn [toString_hex List.flat_map hex_of_byte app]. fold (toString_hex bs).
  intros [H | [H | H]]; [| |tauto].
  - apply hex_digit_not_colon in H; [auto|].
    apply N.Div0.div_lt_upper_bound. lia.
  - apply hex_digit_not_colon in H; [auto|].
    apply N.mod_upper_bound. lia.
Qed.

(** The three hexadecimal fields come back apart. *)
Lemma split_blob a b c :
  split 58 (toString_hex a ++ [58] ++ toString_hex b ++ [58] ++ toString_hex c)
  = [toString_hex a; toString_hex b; toString_hex c].
Proof.
  cbn [app].
  rewrite split_app_sep by apply toString_hex_no_colon.
  rewrite split_app_sep by apply toString_hex_no_colon.
  rewrite split_no_sep by apply toString_hex_no_colon.
  reflexivity.
Qed.

(** *** Exclusive or *)

Lemma lxor_lt_256 a b : a < 256 -> b < 256 -> N.lxor a b < 256.
Proof.
  intros Ha Hb.
  destruct (N.eq_dec (N.lxor a b) 0) as [->|Hnz]; [lia|].
  apply (N.log2_lt_pow2 _ 8); [lia|].
  eapply N.le_lt_trans; [apply N.log2_lxor|].
  apply N.max_lub_lt.
  - destruct (N.eq_dec a 0) as [->|]; [cbn; lia|]. apply N.log2_lt_pow2; lia.
  - destruct (N.eq_dec b 0) as [->|]; [cbn; lia|]. apply N.log2_lt_pow2; lia.
Qed.

Lemma byte_xor_involutive a k : byte_xor (byte_xor a k) k = a.
Proof.
  unfold byte_xor at 1.
  unfold byte_xor. rewrite to_N_byte_of_N_small
    by (apply lxor_lt_256; apply to_N_lt).
  rewrite N.lxor_assoc, N.lxor_nilpotent, N.lxor_0_r.
  apply byte_of_N_to_N.
Qed.

End BufferFacts.

(** ** UTF-8 *)

Module Utf8Facts.
Import Js Buffer BufferFacts.

Ltac Zify.zify_post_hook ::= Z.to_euclidean_division_equations.

Lemma lead_1 b : b < 0x80 -> lead b = Emit b.
Proof. intros H. unfold lead. destruct (N.ltb_spec b 0x80); [reflexivity|lia]. Qed.

Ltac decide_range :=
  repeat match goal with
  | |- context [?a <? ?b] => destruct (N.ltb_spec a b); try lia
  | |- context [?a <=? ?b] => destruct (N.leb_spec a b); try lia
  | |- context [?a =? ?b] => destruct (N.eqb_spec a b); try lia
  end; cbn [andb orb negb].

Lemma lead_2 b :
  0xC2 <= b <= 0xDF ->
  lead b = Pend {| acc := b - 0xC0; needed := 1; lower := 0x80; upper := 0xBF |}.
Proof. intros H. unfold lead. decide_range. reflexivity. Qed.

Lemma lead_3 b :
  0xE0 <= b <= 0xEF ->
  lead b = Pend {| acc := b - 0xE0; needed := 2;
                   lower := if b =? 0xE0 then 0xA0 else 0x80;
                   upper := if b =? 0xED then 0x9F else 0xBF |}.
Proof.
  intros H. unfold lead.
  destruct (N.ltb_spec b 0x80); [lia|].
  destruct (N.leb_spec 0xC2 b); [|lia].
  destruct (N.leb_spec b 0xDF); [lia|].
  destruct (N.leb_spec 0xE0 b); [|lia].
  destruct (N.leb_spec b 0xEF); [|lia].
  reflexivity.
Qed.

Lemma lead_4 b :
  0xF0 <= b <= 0xF4 ->
  lead b = Pend {| acc := b - 0xF0; needed := 3;
                   lower := if b =? 0xF0 then 0x90 else 0x80;
                   upper := if b =? 0xF4 then 0x8F else 0xBF |}.
Proof.
  intros H. unfold lead.
  destruct (N.ltb_spec b 0x80); [lia|].
  destruct (N.leb_spec 0xC2 b); [|lia].
  destruct (N.leb_spec b 0xDF); [lia|].
  destruct (N.leb_spec 0xE0 b); [|lia].
  destruct (N.leb_spec b 0xEF); [lia|].
  destruct (N.leb_spec 0xF0 b); [|lia].
  destruct (N.leb_spec b 0xF4); [|lia].
  reflexivity.
Qed.

Lemma decode_start b rest :
  decode_code_points None (b :: rest) =
  match lead (Byte.to_N b) with
  | Emit cp => cp :: decode_code_points None rest
  | Pend p => decode_code_points (Some p) rest
  end.
Proof. reflexivity. Qed.

Lemma decode_continue p b rest :
  lower p <= Byte.to_N b <= upper p ->
  decode_code_points (Some p) (b :: rest) =
  match needed p with
  | S (S n) =>
      decode_code_points
        (Some {| acc := acc p * 64 + (Byte.to_N b - 0x80); needed := S n;
                 lower := 0x80; upper := 0xBF |}) rest
  | _ => acc p * 64 + (Byte.to_N b - 0x80) :: decode_code_points None rest
  end.
Proof.
  intros [Hl Hu]. cbn [decode_code_points].
  destruct (N.leb_spec (lower p) (Byte.to_N b)); [|lia].
  destruct (N.leb_spec (Byte.to_N b) (upper p)); [|lia].
  reflexivity.
Qed.

Lemma decode_encode_code_point cp rest :
  scalar cp ->
  decode_code_points None (utf8_of_code_point cp ++ rest)
  = cp :: decode_code_points None rest.
Proof.
  intros Hcp. unfold scalar in Hcp. unfold utf8_of_code_point.
  destruct (N.ltb_spec cp 0x80) as [H1|H1];
    [|destruct (N.ltb_spec cp 0x800) as [H2|H2];
      [|destruct (N.ltb_spec cp 0x10000) as [H3|H3]]];
    cbn [app].
  - rewrite decode_start, to_N_byte_of_N_small by lia.
    now rewrite lead_1.
  - rewrite decode_start, to_N_byte_of_N_small by lia.
    rewrite lead_2 by lia.
    rewrite decode_continue; cbn [lower upper needed acc];
      rewrite to_N_byte_of_N_small by lia; [|lia].
    f_equal. lia.
  - rewrite decode_start, to_N_byte_of_N_small by lia.
    rewrite lead_3 by lia.
    rewrite decode_continue; cbn [lower upper needed acc];
      rewrite to_N_byte_of_N_small by lia.
    2:{ destruct (N.eqb_spec (0xE0 + cp / 4096) 0xE0);
        destruct (N.eqb_spec (0xE0 + cp / 4096) 0xED); lia. }
    rewrite decode_continue; cbn [lower upper needed acc];
      rewrite to_N_byte_of_N_small by lia; [|lia].
    f_equal. lia.
  - rewrite decode_start, to_N_byte_of_N_small by lia.
    rewrite lead_4 by lia.
    rewrite decode_continue; cbn [lower upper needed acc];
      rewrite to_N_byte_of_N_small by lia.
    2:{ destruct (N.eqb_spec (0xF0 + cp / 262144) 0xF0);
        destruct (N.eqb_spec (0xF0 + cp / 262144) 0xF4); lia. }
    rewrite decode_continue; cbn [lower upper needed acc];
      rewrite to_N_byte_of_N_small by lia; [|lia].
    rewrite decode_continue; cbn [lower upper needed acc];
      rewrite to_N_byte_of_N_small by lia; [|lia].
    f_equal. lia.
Qed.

Lemma toString_utf8_code_point cp rest :
  scalar cp ->
  toString_utf8 (utf8_of_code_point cp ++ rest)
  = utf16_of_code_point cp ++ toString_utf8 rest.
Proof.
  intros H. unfold toString_utf8.
  now rewrite decode_encode_code_point.
Qed.

Lemma surrogates_split c :
  (is_high_surrogate c = true <-> 0xD800 <= c <= 0xDBFF) /\
  (is_low_surrogate c = true <-> 0xDC00 <= c <= 0xDFFF).
Proof.
  unfold is_high_surrogate, is_low_surrogate.
  rewrite !andb_true_iff, !N.leb_le. tauto.
Qed.

Lemma utf16_of_pair c d :
  is_high_surrogate c = true -> is_low_surrogate d = true ->
  scalar (0x10000 + (c - 0xD800) * 1024 + (d - 0xDC00)) /\
  utf16_of_code_point (0x10000 + (c - 0xD800) * 1024 + (d - 0xDC00)) = [c; d].
Proof.
  intros Hc Hd. apply surrogates_split in Hc, Hd.
  split; [unfold scalar; lia|].
  unfold utf16_of_code_point.
  destruct (N.ltb_spec (0x10000 + (c - 0xD800) * 1024 + (d - 0xDC00)) 0x10000);
    [lia|].
  f_equal; [lia|]. f_equal. lia.
Qed.

Lemma utf16_of_bmp c :
  is_high_surrogate c = false -> is_low_surrogate c = false -> c < 0x10000 ->
  scalar c /\ utf16_of_code_point c = [c].
Proof.
  intros Hh Hl Hc. unfold utf16_of_code_point.
  destruct (N.ltb_spec c 0x10000); [|lia]. split; [|reflexivity].
  unfold scalar, is_high_surrogate, is_low_surrogate in *.
  apply andb_false_iff in Hh, Hl. rewrite !N.leb_gt in Hh, Hl. lia.
Qed.

Lemma utf8_encode_cons c rest :
  utf8_encode (c :: rest) =
  if is_high_surrogate c then
    match rest with
    | d :: rest' =>
        if is_low_surrogate d
        then utf8_of_code_point (0x10000 + (c - 0xD800) * 1024 + (d - 0xDC00))
             ++ utf8_encode rest'
        else utf8_of_code_point replacement ++ utf8_encode rest
    | [] => utf8_of_code_point replacement
    end
  else if is_low_surrogate c
  then utf8_of_code_point replacement ++ utf8_encode rest
  else utf8_of_code_point c ++ utf8_encode rest.
Proof. reflexivity. Qed.

Lemma isWellFormed_cons c rest :
  isWellFormed (c :: rest) =
  if is_high_surrogate c then
    match rest with
    | d :: rest' => is_low_surrogate d && isWellFormed rest'
    | [] => false
    end
  else negb (is_low_surrogate c) && (c <? 0x10000) && isWellFormed rest.
Proof. reflexivity. Qed.

Lemma utf8_round_trip_aux s :
  (isWellFormed s = true -> toString_utf8 (utf8_encode s) = s) /\
  (forall c, isWellFormed (c :: s) = true ->
             toString_utf8 (utf8_encode (c :: s)) = c :: s).
Proof.
  induction s as [|d s [IH1 IH2]].
  - split; [reflexivity|]. intros c.
    rewrite isWellFormed_cons, utf8_encode_cons.
    destruct (is_high_surrogate c) eqn:Hh; [discriminate|].
    destruct (is_low_surrogate c) eqn:Hl; [discriminate|].
    cbn [negb andb isWellFormed]. rewrite andb_true_r.
    intros Hc. apply N.ltb_lt in Hc.
    destruct (utf16_of_bmp c Hh Hl Hc) as [Hs Hu].
    rewrite toString_utf8_code_point by exact Hs. now rewrite Hu.
  - split; [apply IH2|]. intros c.
    rewrite (isWellFormed_cons c), (utf8_encode_cons c).
    destruct (is_high_surrogate c) eqn:Hh.
    + intros H. apply andb_true_iff in H as [Hd Hs]. rewrite Hd.
      destruct (utf16_of_pair c d Hh Hd) as [Hsc Hu].
      rewrite toString_utf8_code_point by exact Hsc.
      rewrite Hu, IH1 by exact Hs. reflexivity.
    + destruct (is_low_surrogate c) eqn:Hl; [discriminate|].
      cbn [negb andb]. intros H. apply andb_true_iff in H as [Hc Hs].
      apply N.ltb_lt in Hc.
      destruct (utf16_of_bmp c Hh Hl Hc) as [Hsc Hu].
      rewrite toString_utf8_code_point by exact Hsc.
      rewrite Hu, IH2 by exact Hs. reflexivity.
Qed.

(** A well-formed string survives the passage through UTF-8. *)
Lemma utf8_round_trip s :
  isWellFormed s = true -> toString_utf8 (utf8_encode s) = s.
Proof. apply utf8_round_trip_aux. Qed.

(** An ASCII literal is well formed. *)
Lemma isWellFormed_ascii s :
  Forall (fun c => c < 0x80) s -> isWellFormed s = true.
Proof.
  induction 1 as [|c s Hc _ IH]; [reflexivity|].
  cbn [isWellFormed]. unfold is_high_surrogate, is_low_surrogate.
  destruct (N.leb_spec 0xD800 c); [lia|].
  destruct (N.leb_spec 0xDC00 c); [lia|].
  destruct (N.ltb_spec c 0x10000); [|lia]. exact IH.
Qed.

End Utf8Facts.

(** ** The secret codec *)

Module CodecFacts.
Import Js Buffer Codec JsFacts BufferFacts Utf8Facts.

Lemma bytes_eqb_eq a b : bytes_eqb a b = true <-> a = b.
Proof.
  revert b. induction a as [|x a IH]; intros [|y b]; simpl;
    try (split; discriminate); try tauto.
  rewrite andb_true_iff, IH. split.
  - intros [H ->]. apply Byte.byte_dec_bl in H. now subst.
  - intros H. injection H as -> ->. split; auto. now apply Byte.byte_dec_lb.
Qed.

Lemma crypt_from_involutive (ks : nat -> byte) data start :
  List.map (fun ib => byte_xor (snd ib) (ks (fst ib)))
    (List.combine (seq start (length data))
       (List.map (fun ib => byte_xor (snd ib) (ks (fst ib)))
          (List.combine (seq start (length data)) data)))
  = data.
Proof.
  revert start. induction data as [|b data IH]; intros start; [reflexivity|].
  cbn [length seq List.combine List.map fst snd].
  rewrite byte_xor_involutive. f_equal. apply IH.
Qed.

Lemma gcm_crypt_length C c data : length (gcm_crypt C c data) = length data.
Proof.
  unfold gcm_crypt. rewrite length_map, length_combine, length_seq. lia.
Qed.

(** Counter mode undoes itself. *)
Lemma gcm_crypt_involutive C c data :
  gcm_crypt C c (gcm_crypt C c data) = data.
Proof.
  unfold gcm_crypt at 1. rewrite gcm_crypt_length. unfold gcm_crypt.
  apply crypt_from_involutive.
Qed.

Lemma randomBytes_length n ent : length (randomBytes n ent) = n.
Proof. unfold randomBytes. now rewrite length_map, length_seq. Qed.

(** *** Key derivation *)

Lemma getEncryptionKey_cases C env :
  (exists s, SESSION_SECRET env = Some s /\ s <> [] /\
             getEncryptionKey C env = Ok (sha256 C (utf8_encode s))) \/
  ((SESSION_SECRET env = None \/ SESSION_SECRET env = Some []) /\
   ((NODE_ENV env = Some production /\
     getEncryptionKey C env = Throw ConfigurationError) \/
    (NODE_ENV env <> Some production /\
     getEncryptionKey C env = Ok (dev_key C)))).
Proof.
  unfold getEncryptionKey, dev_key.
  destruct (SESSION_SECRET env) as [[|c s]|] eqn:Es; simpl.
  - right. split; [now right|].
    destruct (NODE_ENV env) as [mode|]; [|right; split; [discriminate|reflexivity]].
    destruct (str_eqb mode production) eqn:Em.
    + apply str_eqb_eq in Em as ->. now left.
    + right. split; [|reflexivity]. intros H. injection H as ->.
      now rewrite (proj2 (str_eqb_eq _ _) eq_refl) in Em.
  - left. exists (c :: s). repeat split. discriminate.
  - right. split; [now left|].
    destruct (NODE_ENV env) as [mode|]; [|right; split; [discriminate|reflexivity]].
    destruct (str_eqb mode production) eqn:Em.
    + apply str_eqb_eq in Em as ->. now left.
    + right. split; [|reflexivity]. intros H. injection H as ->.
      now rewrite (proj2 (str_eqb_eq _ _) eq_refl) in Em.
Qed.

Lemma key_length C env key :
  NodeCrypto_ok C -> getEncryptionKey C env = Ok key -> length key = 32%nat.
Proof.
  intros HC H.
  destruct (getEncryptionKey_cases C env)
    as [(s & _ & _ & E) | (_ & [(_ & E) | (_ & E)])];
    rewrite E in H; try discriminate; injection H as <-;
    apply (sha256_length C HC).
Qed.

Lemma createCipheriv_ok C key iv :
  NodeCrypto_ok C -> length key = 32%nat -> length iv = 16%nat ->
  createCipheriv C key iv = Ok {| cipher_key := key; cipher_iv := iv |}.
Proof.
  intros HC Hk Hiv. unfold createCipheriv.
  rewrite Hk, Hiv, (gcm_iv16_ok C HC). reflexivity.
Qed.

(** *** What [decrypt] does with a blob of three hexadecimal fields *)

Lemma update_hex_input_hex bs : update_hex_input (toString_hex bs) = Ok bs.
Proof.
  unfold update_hex_input. rewrite from_hex_toString_hex.
  replace (Nat.odd (length (toString_hex bs))) with false; [reflexivity|].
  induction bs as [|b bs IH]; [reflexivity|].
  cbn [toString_hex List.flat_map hex_of_byte app length].
  fold (toString_hex bs). exact IH.
Qed.

Lemma decrypt_blob C env key iv tag ct :
  NodeCrypto_ok C -> getEncryptionKey C env = Ok key ->
  length iv = 16%nat -> length tag = 16%nat ->
  decrypt C env (toString_hex iv ++ [COLON] ++ toString_hex tag
                   ++ [COLON] ++ toString_hex ct)
  = if bytes_eqb (gcm_tag C key iv ct) tag
    then Ok (toString_utf8
               (gcm_crypt C {| cipher_key := key; cipher_iv := iv |} ct))
    else Throw AuthenticationError.
Proof.
  intros HC Hkey Hiv Htag. unfold decrypt. rewrite Hkey. cbn [bind].
  unfold COLON. rewrite split_blob, !from_hex_toString_hex.
  rewrite (createCipheriv_ok C key iv HC (key_length C env key HC Hkey) Hiv).
  cbn [bind]. unfold setAuthTag. rewrite Htag. cbn [valid_gcm_tag_length
    Nat.eqb Nat.leb orb andb bind].
  rewrite update_hex_input_hex. cbn [bind].
  unfold tag_verifies, getAuthTag. cbn [cipher_key cipher_iv].
  rewrite firstn_all2 by (rewrite (gcm_tag_length C HC); lia).
  reflexivity.
Qed.

(** [encrypt] emits such a blob, and [decrypt] gives back the text as it
    reads after the passage through UTF-8. *)
Lemma decrypt_encrypt_utf8 C env ent key text :
  NodeCrypto_ok C -> getEncryptionKey C env = Ok key ->
  exists blob,
    encrypt C env ent text = Ok blob /\
    decrypt C env blob = Ok (toString_utf8 (utf8_encode text)).
Proof.
  intros HC Hkey. unfold encrypt. rewrite Hkey. cbn [bind].
  rewrite (createCipheriv_ok C key _ HC (key_length C env key HC Hkey)
             (randomBytes_length 16 ent)).
  cbn [bind]. eexists. split; [reflexivity|].
  cbn [toString_hex List.flat_map]. rewrite app_nil_r.
  rewrite (decrypt_blob C env key) by
    (auto using randomBytes_length; apply (gcm_tag_length C HC)).
  unfold getAuthTag. cbn [cipher_key cipher_iv].
  rewrite (proj2 (bytes_eqb_eq _ _) eq_refl).
  now rewrite gcm_crypt_involutive.
Qed.

Lemma toy_crypto_ok : NodeCrypto_ok toy_crypto.
Proof.
  split; cbn [toy_crypto sha256 gcm_tag gcm_iv_length_ok]; [| |reflexivity].
  - intros m. rewrite length_firstn, length_app, repeat_length. lia.
  - intros k iv c. rewrite length_firstn, !length_app, repeat_length. lia.
Qed.

Lemma configured_key :
  getEncryptionKey toy_crypto CodecSample.configured
  = Ok (sha256 toy_crypto (utf8_encode (lit "correct horse battery staple"))).
Proof. vm_compute. reflexivity. Qed.

Lemma development_key :
  getEncryptionKey toy_crypto CodecSample.development = Ok (dev_key toy_crypto).
Proof. vm_compute. reflexivity. Qed.

(** *** The claims on the codec *)

(** C4, as stated, fails: a string made of one unpaired surrogate is
    written to UTF-8 as U+FFFD, and that is what decryption returns. *)
Lemma lone_surrogate_is_not_restored :
  exists blob,
    encrypt toy_crypto CodecSample.configured CodecSample.dice [0xD800] = Ok blob /\
    decrypt toy_crypto CodecSample.configured blob = Ok [0xFFFD] /\
    decrypt toy_crypto CodecSample.configured blob <> Ok [0xD800].
Proof.
  eexists. split; [vm_compute; reflexivity|].
  split; [vm_compute; reflexivity|]. vm_compute. discriminate.
Qed.

(** C4, amended.  With a key derivable from the configuration, whatever
    the random IV, [encrypt] returns a blob that [decrypt] turns back into
    the text, for every well-formed text (no unpaired surrogate), the empty
    text and texts with colons included. *)
Theorem decrypt_encrypt C env ent key text :
  NodeCrypto_ok C -> getEncryptionKey C env = Ok key ->
  isWellFormed text = true ->
  exists blob,
    encrypt C env ent text = Ok blob /\ decrypt C env blob = Ok text.
Proof.
  intros HC Hkey Hwf.
  destruct (decrypt_encrypt_utf8 C env ent key text HC Hkey) as (blob & He & Hd).
  exists blob. split; [exact He|]. now rewrite Hd, utf8_round_trip.
Qed.

Lemma decrypt_encrypt_witness :
  (exists blob,
     encrypt toy_crypto CodecSample.configured CodecSample.dice (lit "a:b::") = Ok blob /\
     decrypt toy_crypto CodecSample.configured blob = Ok (lit "a:b::")) /\
  (exists blob,
     encrypt toy_crypto CodecSample.development CodecSample.dice [] = Ok blob /\
     decrypt toy_crypto CodecSample.development blob = Ok []).
Proof.
  split.
  - apply (decrypt_encrypt toy_crypto CodecSample.configured CodecSample.dice
             (sha256 toy_crypto (utf8_encode (lit "correct horse battery staple")))).
    + exact toy_crypto_ok.
    + exact configured_key.
    + vm_compute. reflexivity.
  - apply (decrypt_encrypt toy_crypto CodecSample.development CodecSample.dice
             (dev_key toy_crypto)).
    + exact toy_crypto_ok.
    + exact development_key.
    + vm_compute. reflexivity.
Defined.

(** C5.  With a derived key, a blob of three hexadecimal fields (16-byte
    IV, 16-byte tag, ciphertext) whose tag is not the tag of its ciphertext
    makes [decrypt] throw the authentication error; and whenever [decrypt]
    returns a text, the tag of the blob did verify. *)
Theorem tampered_blob_rejected C env key :
  NodeCrypto_ok C -> getEncryptionKey C env = Ok key ->
  (forall iv tag ct,
      length iv = 16%nat -> length tag = 16%nat ->
      tag <> gcm_tag C key iv ct ->
      decrypt C env (toString_hex iv ++ [COLON] ++ toString_hex tag
                       ++ [COLON] ++ toString_hex ct)
      = Throw AuthenticationError) /\
  (forall blob text,
      decrypt C env blob = Ok text ->
      exists part0 part1 part2,
        split COLON blob = [part0; part1; part2] /\
        tag_verifies C {| cipher_key := key; cipher_iv := from_hex part0 |}
          (from_hex part1) (from_hex part2) = true).
Proof.
  intros HC Hkey. split.
  - intros iv tag ct Hiv Htag Hne.
    rewrite (decrypt_blob C env key) by assumption.
    destruct (bytes_eqb (gcm_tag C key iv ct) tag) eqn:E; [|reflexivity].
    apply bytes_eqb_eq in E. congruence.
  - intros blob text. unfold decrypt. rewrite Hkey. cbn [bind].
    destruct (split COLON blob) as [|p0 [|p1 [|p2 [|p3 ps]]]]; try discriminate.
    unfold createCipheriv.
    destruct (negb (length key =? 32)%nat); [discriminate|].
    destruct (negb (gcm_iv_length_ok C (length (from_hex p0)))); [discriminate|].
    cbn [bind]. destruct (setAuthTag (from_hex p1)); [|discriminate].
    cbn [bind]. unfold update_hex_input.
    destruct (Nat.odd (length p2)); [discriminate|]. cbn [bind].
    destruct (tag_verifies C _ (from_hex p1) (from_hex p2)) eqn:E;
      [|discriminate].
    intros _. exists p0, p1, p2. split; [reflexivity|exact E].
Qed.

Lemma tampered_blob_rejected_witness :
  decrypt toy_crypto CodecSample.configured
    (toString_hex (randomBytes 16 CodecSample.dice) ++ [COLON]
     ++ toString_hex (List.repeat xff 16) ++ [COLON] ++ toString_hex [x01; x02])
  = Throw AuthenticationError.
Proof.
  apply (tampered_blob_rejected toy_crypto CodecSample.configured
           (sha256 toy_crypto (utf8_encode (lit "correct horse battery staple")))
           toy_crypto_ok configured_key).
  - vm_compute. reflexivity.
  - vm_compute. reflexivity.
  - vm_compute. discriminate.
Defined.

(** C6, as stated, fails: in production mode without a secret, [decrypt]
    throws the configuration error on a blob of two segments, not the
    format error. *)
Lemma format_error_needs_a_key :
  length (split COLON (lit "00ff:a1b2")) = 2%nat /\
  decrypt toy_crypto CodecSample.production_without_secret (lit "00ff:a1b2")
    = Throw ConfigurationError /\
  ~ (decrypt toy_crypto CodecSample.production_without_secret (lit "00ff:a1b2")
       = Throw FormatError
     <-> length (split COLON (lit "00ff:a1b2")) <> 3%nat).
Proof.
  split; [vm_compute; reflexivity|]. split; [vm_compute; reflexivity|].
  intros [_ H].
  assert (E : decrypt toy_crypto CodecSample.production_without_secret
                (lit "00ff:a1b2") = Throw FormatError)
    by (apply H; vm_compute; discriminate).
  vm_compute in E. discriminate E.
Qed.

(** C6, amended.  With a derived key, [decrypt] throws the format error
    exactly when splitting the input at colons does not give three
    segments; so it does for two and for four segments. *)
Theorem decrypt_format_error C env key blob :
  getEncryptionKey C env = Ok key ->
  (decrypt C env blob = Throw FormatError
   <-> length (split COLON blob) <> 3%nat) /\
  (length (split COLON blob) = 2%nat \/ length (split COLON blob) = 4%nat ->
   decrypt C env blob = Throw FormatError).
Proof.
  intros Hkey.
  assert (H : decrypt C env blob = Throw FormatError
              <-> length (split COLON blob) <> 3%nat).
  { unfold decrypt. rewrite Hkey. cbn [bind].
    destruct (split COLON blob) as [|p0 [|p1 [|p2 [|p3 ps]]]];
      cbn [length]; try (split; [intros _; lia | reflexivity]).
    split; [|intros Hne; now elim Hne].
    unfold createCipheriv.
    destruct (negb (length key =? 32)%nat); [discriminate|].
    destruct (negb (gcm_iv_length_ok C (length (from_hex p0)))); [discriminate|].
    cbn [bind]. unfold setAuthTag.
    destruct (valid_gcm_tag_length (length (from_hex p1))); [|discriminate].
    cbn [bind]. unfold update_hex_input.
    destruct (Nat.odd (length p2)); [discriminate|]. cbn [bind].
    destruct (tag_verifies C _ (from_hex p1) (from_hex p2)); discriminate. }
  split; [exact H|]. intros Hn. apply H. lia.
Qed.

Lemma decrypt_format_error_witness :
  decrypt toy_crypto CodecSample.configured (lit "00ff:a1b2") = Throw FormatError /\
  decrypt toy_crypto CodecSample.configured (lit "00:11:22:33") = Throw FormatError /\
  decrypt toy_crypto CodecSample.configured (lit "00:11:22") <> Throw FormatError.
Proof.
  pose (key := sha256 toy_crypto (utf8_encode (lit "correct horse battery staple"))).
  split; [|split].
  - apply (decrypt_format_error toy_crypto CodecSample.configured key
             (lit "00ff:a1b2") configured_key).
    left. vm_compute. reflexivity.
  - apply (decrypt_format_error toy_crypto CodecSample.configured key
             (lit "00:11:22:33") configured_key).
    right. vm_compute. reflexivity.
  - intros H.
    apply (decrypt_format_error toy_crypto CodecSample.configured key
             (lit "00:11:22") configured_key) in H.
    apply H. vm_compute. reflexivity.
Defined.

(** C7.  The key is the SHA-256 digest of the configured secret, the same
    for any two configurations with that secret; without a secret, key
    derivation, [encrypt] and [decrypt] throw the configuration error in
    production mode, and the key is the digest of the fixed development
    constant in any other mode. *)
Theorem key_derivation C :
  (forall env1 env2 secret,
      SESSION_SECRET env1 = Some secret -> SESSION_SECRET env2 = Some secret ->
      secret <> [] ->
      getEncryptionKey C env1 = Ok (sha256 C (utf8_encode secret)) /\
      getEncryptionKey C env2 = getEncryptionKey C env1) /\
  (forall env,
      SESSION_SECRET env = None -> NODE_ENV env = Some production ->
      getEncryptionKey C env = Throw ConfigurationError /\
      (forall ent text, encrypt C env ent text = Throw ConfigurationError) /\
      (forall blob, decrypt C env blob = Throw ConfigurationError)) /\
  (forall env,
      SESSION_SECRET env = None -> NODE_ENV env <> Some production ->
      getEncryptionKey C env = Ok (dev_key C)).
Proof.
  assert (Hsecret : forall env secret,
             SESSION_SECRET env = Some secret -> secret <> [] ->
             getEncryptionKey C env = Ok (sha256 C (utf8_encode secret))).
  { intros env secret Hs Hne. unfold getEncryptionKey. rewrite Hs.
    destruct secret; [contradiction|reflexivity]. }
  split; [|split].
  - intros env1 env2 secret H1 H2 Hne.
    rewrite (Hsecret env1 secret H1 Hne), (Hsecret env2 secret H2 Hne). auto.
  - intros env Hs Hmode.
    assert (E : getEncryptionKey C env = Throw ConfigurationError).
    { unfold getEncryptionKey. rewrite Hs, Hmode. cbn [negb].
      now rewrite (proj2 (str_eqb_eq _ _) eq_refl). }
    split; [exact E|]. split; intros; [unfold encrypt | unfold decrypt];
      now rewrite E.
  - intros env Hs Hmode.
    destruct (getEncryptionKey_cases C env)
      as [(s & Hs' & _) | (_ & [(Hm & _) | (_ & E)])];
      [congruence | contradiction | exact E].
Qed.

Lemma key_derivation_witness :
  getEncryptionKey toy_crypto CodecSample.configured
    = Ok (sha256 toy_crypto (utf8_encode (lit "correct horse battery staple"))) /\
  decrypt toy_crypto CodecSample.production_without_secret (lit "00:11:22")
    = Throw ConfigurationError /\
  getEncryptionKey toy_crypto CodecSample.development = Ok (dev_key toy_crypto).
Proof.
  destruct (key_derivation toy_crypto) as (H1 & H2 & H3).
  split; [|split].
  - apply (H1 CodecSample.configured CodecSample.configured);
      [reflexivity | reflexivity | discriminate].
  - apply (H2 CodecSample.production_without_secret); reflexivity.
  - apply (H3 CodecSample.development); [reflexivity | discriminate].
Defined.

(** C10.  An empty secret behaves as no secret: key derivation, [encrypt]
    and [decrypt] give what they give with the secret unset, that is the
    configuration error in production mode and the development key
    otherwise. *)
Theorem empty_secret_is_absent C env :
  SESSION_SECRET env = Some [] ->
  let unset := {| SESSION_SECRET := None; NODE_ENV := NODE_ENV env |} in
  getEncryptionKey C env = getEncryptionKey C unset /\
  (forall ent text, encrypt C env ent text = encrypt C unset ent text) /\
  (forall blob, decrypt C env blob = decrypt C unset blob) /\
  (NODE_ENV env = Some production ->
     getEncryptionKey C env = Throw ConfigurationError /\
     (forall ent text, encrypt C env ent text = Throw ConfigurationError) /\
     (forall blob, decrypt C env blob = Throw ConfigurationError)) /\
  (NODE_ENV env <> Some production ->
     getEncryptionKey C env = Ok (dev_key C)).
Proof.
  intros Hs unset.
  assert (E : getEncryptionKey C env = getEncryptionKey C unset).
  { unfold getEncryptionKey, unset. rewrite Hs. reflexivity. }
  split; [exact E|].
  split; [intros; unfold encrypt; now rewrite E|].
  split; [intros; unfold decrypt; now rewrite E|].
  split.
  - intros Hmode.
    assert (E' : getEncryptionKey C env = Throw ConfigurationError).
    { unfold getEncryptionKey. rewrite Hs, Hmode. cbn [truthy negb].
      now rewrite (proj2 (str_eqb_eq _ _) eq_refl). }
    split; [exact E'|]. split; intros; [unfold encrypt | unfold decrypt];
      now rewrite E'.
  - intros Hmode.
    destruct (getEncryptionKey_cases C env)
      as [(s & Hs' & Hne & _) | (_ & [(Hm & _) | (_ & E')])];
      [congruence | contradiction | exact E'].
Qed.

Lemma empty_secret_is_absent_witness :
  getEncryptionKey toy_crypto CodecSample.production_empty_secret
  = getEncryptionKey toy_crypto CodecSample.production_without_secret /\
  getEncryptionKey toy_crypto CodecSample.production_empty_secret
  = Throw ConfigurationError.
Proof.
  destruct (empty_secret_is_absent toy_crypto CodecSample.production_empty_secret
              eq_refl) as (H1 & _ & _ & H2 & _).
  split; [exact H1|]. apply H2. reflexivity.
Defined.

End CodecFacts.

(** ** Positional number systems *)

Module RadixFacts.
Import Radix.

Lemma size_nat_gt n : n < 2 ^ N.of_nat (N.size_nat n).
Proof.
  destruct n as [|p]; [cbn; lia|]. cbn [N.size_nat].
  induction p as [p IH|p IH|].
  - cbn [Pos.size_nat]. rewrite Nat2N.inj_succ, N.pow_succ_r'. lia.
  - cbn [Pos.size_nat]. rewrite Nat2N.inj_succ, N.pow_succ_r'. lia.
  - cbn. lia.
Qed.

Lemma count_leading_split {A} (p : A -> bool) l :
  l = firstn (count_leading p l) l ++ skipn (count_leading p l) l /\
  Forall (fun x => p x = true) (firstn (count_leading p l) l) /\
  (forall x rest, skipn (count_leading p l) l = x :: rest -> p x = false).
Proof.
  induction l as [|a l (IH1 & IH2 & IH3)]; cbn [count_leading].
  - repeat split; [constructor | discriminate].
  - destruct (p a) eqn:E; cbn [firstn skipn app].
    + repeat split; [now f_equal | now constructor | exact IH3].
    + repeat split; [constructor|]. intros x rest H. now injection H as <- _.
Qed.

Lemma count_leading_repeat {A} (p : A -> bool) a n l :
  p a = true -> (forall x rest, l = x :: rest -> p x = false) ->
  count_leading p (List.repeat a n ++ l) = n.
Proof.
  intros Ha Hl. induction n as [|n IH]; cbn [List.repeat app count_leading].
  - destruct l as [|x rest]; [reflexivity|].
    cbn [count_leading]. now rewrite (Hl x rest eq_refl).
  - now rewrite Ha, IH.
Qed.

Section base.
Variable b : N.
Hypothesis Hb : 2 <= b.

Lemma fold_value ds a :
  List.fold_left (fun a d => a * b + d) ds a
  = a * b ^ N.of_nat (length ds) + value b ds.
Proof using Type. clear Hb.
  unfold value. revert a. induction ds as [|d ds IH]; intros a.
  - cbn. lia.
  - cbn [List.fold_left length]. rewrite IH, (IH (0 * b + d)).
    rewrite Nat2N.inj_succ, N.pow_succ_r'. lia.
Qed.

Lemma value_snoc ds d : value b (ds ++ [d]) = value b ds * b + d.
Proof using Type. clear Hb. unfold value. now rewrite List.fold_left_app. Qed.

Lemma value_cons d ds :
  value b (d :: ds) = d * b ^ N.of_nat (length ds) + value b ds.
Proof using Type. clear Hb.
  unfold value at 1. cbn [List.fold_left]. rewrite fold_value. lia.
Qed.

Lemma value_zeros n ds : value b (List.repeat 0 n ++ ds) = value b ds.
Proof using Type. clear Hb.
  induction n as [|n IH]; [reflexivity|].
  cbn [List.repeat app]. rewrite value_cons, IH. lia.
Qed.

Lemma div_lt_pow n f : n < 2 ^ N.of_nat (S f) -> n / b < 2 ^ N.of_nat f.
Proof using Hb.
  intros H. rewrite Nat2N.inj_succ, N.pow_succ_r' in H.
  apply N.Div0.div_lt_upper_bound.
  eapply N.lt_le_trans; [exact H|].
  apply N.mul_le_mono_r. exact Hb.
Qed.

Lemma digits_aux_fuel f1 f2 n out :
  n < 2 ^ N.of_nat f1 -> n < 2 ^ N.of_nat f2 ->
  digits_aux f1 b n out = digits_aux f2 b n out.
Proof using Hb.
  revert f2 n out. induction f1 as [|f1 IH]; intros f2 n out H1 H2.
  - cbn in H1. assert (n = 0) as -> by lia.
    destruct f2; reflexivity.
  - cbn [digits_aux]. destruct (N.eqb_spec n 0) as [->|Hn].
    + destruct f2; reflexivity.
    + destruct f2 as [|f2]; [cbn in H2; lia|].
      cbn [digits_aux]. destruct (N.eqb_spec n 0); [contradiction|].
      apply IH; now apply div_lt_pow.
Qed.

Lemma digits_aux_app f n out :
  digits_aux f b n out = digits_aux f b n [] ++ out.
Proof using Type. clear Hb.
  revert n out. induction f as [|f IH]; intros n out; [reflexivity|].
  cbn [digits_aux]. destruct (n =? 0); [reflexivity|].
  rewrite IH, (IH _ [n mod b]), <- app_assoc. reflexivity.
Qed.

Lemma digits_0 : digits b 0 = [].
Proof using Type. clear Hb. reflexivity. Qed.

Lemma digits_step n : n <> 0 -> digits b n = digits b (n / b) ++ [n mod b].
Proof using Hb.
  intros Hn. unfold digits.
  pose proof (size_nat_gt n) as Hs.
  destruct (N.size_nat n) as [|f] eqn:E; [cbn in Hs; lia|].
  cbn [digits_aux]. destruct (N.eqb_spec n 0); [contradiction|].
  rewrite digits_aux_app. f_equal.
  apply digits_aux_fuel; [now apply div_lt_pow | apply size_nat_gt].
Qed.

Lemma div_lt n : n <> 0 -> n / b < n.
Proof using Hb. intros Hn. apply N.div_lt; lia. Qed.

Lemma value_digits n : value b (digits b n) = n.
Proof using Hb.
  induction n as [n IH] using (well_founded_induction N.lt_wf_0).
  destruct (N.eq_dec n 0) as [->|Hn]; [reflexivity|].
  rewrite digits_step, value_snoc, IH by auto using div_lt.
  symmetry. rewrite N.mul_comm. apply N.div_mod. lia.
Qed.

Lemma digits_bounded n : Forall (fun d => d < b) (digits b n).
Proof using Hb.
  induction n as [n IH] using (well_founded_induction N.lt_wf_0).
  destruct (N.eq_dec n 0) as [->|Hn]; [constructor|].
  rewrite digits_step by exact Hn. apply Forall_app. split.
  - apply IH, div_lt, Hn.
  - repeat constructor. apply N.mod_upper_bound. lia.
Qed.

(** The first digit of a positive number is not zero. *)
Lemma digits_head n :
  n <> 0 -> exists d rest, digits b n = d :: rest /\ d <> 0.
Proof using Hb.
  induction n as [n IH] using (well_founded_induction N.lt_wf_0).
  intros Hn. rewrite digits_step by exact Hn.
  destruct (N.eq_dec (n / b) 0) as [E|E].
  - rewrite E, digits_0. exists (n mod b), []. split; [reflexivity|].
    pose proof (N.div_mod n b). lia.
  - destruct (IH (n / b) (div_lt n Hn) E) as (d & rest & -> & Hd).
    exists d, (rest ++ [n mod b]). split; [reflexivity|exact Hd].
Qed.

(** Digits without a leading zero are the digits of their value. *)
Lemma digits_value ds :
  Forall (fun d => d < b) ds ->
  (forall rest, ds <> 0 :: rest) ->
  digits b (value b ds) = ds.
Proof using Hb.
  induction ds as [|d ds IH] using rev_ind; intros Hds Hlead;
    [reflexivity|].
  apply Forall_app in Hds as [Hds Hd]. apply Forall_inv in Hd.
  assert (Hlead' : forall rest, ds <> 0 :: rest).
  { intros rest ->. now apply (Hlead (rest ++ [d])). }
  specialize (IH Hds Hlead').
  rewrite value_snoc.
  assert (Hn : value b ds * b + d <> 0).
  { intros E. assert (value b ds = 0) as E0 by nia.
    assert (d = 0) as -> by nia.
    rewrite E0, digits_0 in IH. subst ds. now apply (Hlead []). }
  rewrite digits_step by exact Hn.
  replace ((value b ds * b + d) / b) with (value b ds).
  - replace ((value b ds * b + d) mod b) with d; [now rewrite IH|].
    symmetry. rewrite N.add_comm, N.Div0.mod_add. apply N.mod_small, Hd.
  - symmetry. rewrite N.add_comm, N.div_add by lia.
    rewrite N.div_small by exact Hd. reflexivity.
Qed.
End base.

End RadixFacts.

(** ** bs58 and wallet addresses *)

Module Base58Facts.
Import Js Buffer Radix Base58 Codec BufferFacts RadixFacts.

Lemma digit_of_char_of_digit d :
  d < 58 -> digit_of_char (char_of_digit d) = Some d.
Proof.
  intros Hd.
  assert (Hall : forallb
                   (fun n => match digit_of_char (char_of_digit (N.of_nat n)) with
                             | Some d' => d' =? N.of_nat n
                             | None => false
                             end) (seq 0 58) = true) by (vm_compute; reflexivity).
  rewrite forallb_forall in Hall.
  specialize (Hall (N.to_nat d)). rewrite N2Nat.id in Hall.
  destruct (digit_of_char (char_of_digit d)) as [d'|].
  - f_equal. apply N.eqb_eq, Hall, in_seq. lia.
  - discriminate Hall. apply in_seq. lia.
Qed.

Lemma char_of_digit_leader d :
  d < 58 -> (char_of_digit d =? LEADER) = true -> d = 0.
Proof.
  intros Hd H. apply N.eqb_eq in H.
  pose proof (digit_of_char_of_digit d Hd) as E. rewrite H in E.
  now injection E.
Qed.

Lemma digits_of_chars_of_digits ds :
  Forall (fun d => d < 58) ds ->
  digits_of_chars (List.map char_of_digit ds) = Some ds.
Proof.
  induction 1 as [|d ds Hd _ IH]; [reflexivity|].
  cbn [List.map digits_of_chars]. now rewrite digit_of_char_of_digit, IH.
Qed.

Lemma is_zero_byte b : (Byte.to_N b =? 0) = true <-> b = x00.
Proof.
  rewrite N.eqb_eq. split; [|now intros ->].
  intros H. now apply to_N_inj.
Qed.

Lemma repeat_of_Forall {A} (a : A) l :
  Forall (fun x => x = a) l -> l = List.repeat a (length l).
Proof.
  induction 1 as [|x l -> _ IH]; [reflexivity|]. cbn. now f_equal.
Qed.

(** A byte sequence is its leading zero bytes followed by the base-256
    digits of the number it spells. *)
Lemma bytes_canonical bs :
  let zeroes := count_leading (fun b => Byte.to_N b =? 0) bs in
  bs = List.repeat x00 zeroes
       ++ List.map byte_of_N (digits 256 (value 256 (List.map Byte.to_N bs))) /\
  (length (digits 256 (value 256 (List.map Byte.to_N bs))) <= length bs)%nat.
Proof.
  intros zeroes.
  destruct (count_leading_split (fun b => Byte.to_N b =? 0) bs)
    as (Hsplit & Hz & Hlead). fold zeroes in Hsplit, Hz, Hlead.
  set (r := skipn zeroes bs) in *.
  assert (Hzeros : firstn zeroes bs = List.repeat x00 (length (firstn zeroes bs))).
  { apply repeat_of_Forall. eapply Forall_impl; [exact Hz|].
    intros b Hb. now apply is_zero_byte. }
  assert (Hval : value 256 (List.map Byte.to_N bs)
                 = value 256 (List.map Byte.to_N r)).
  { rewrite Hsplit at 1. rewrite List.map_app, Hzeros, List.map_repeat.
    apply value_zeros. }
  assert (Hdig : digits 256 (value 256 (List.map Byte.to_N r))
                 = List.map Byte.to_N r).
  { apply digits_value; [lia| |].
    - apply List.Forall_forall. intros d Hd.
      apply List.in_map_iff in Hd as (x & <- & _). apply to_N_lt.
    - intros rest E. destruct r as [|x r']; [discriminate|].
      cbn [List.map] in E. injection E as E _.
      specialize (Hlead x r' eq_refl). cbn beta in Hlead.
      rewrite E in Hlead. discriminate. }
  rewrite Hval, Hdig. split.
  - rewrite List.map_map.
    rewrite (List.map_ext _ (fun b => b)) by apply byte_of_N_to_N.
    rewrite List.map_id.
    assert (Hlen : length (firstn zeroes bs) = zeroes).
    { apply firstn_length_le. unfold zeroes.
      clear. induction bs as [|b bs IH]; cbn; [lia|].
      destruct (Byte.to_N b =? 0); cbn; lia. }
    rewrite Hlen in Hzeros. rewrite <- Hzeros. exact Hsplit.
  - rewrite length_map. unfold r. rewrite length_skipn. lia.
Qed.

(** Decoding undoes encoding. *)
Lemma decode_encode bs : decode (encode bs) = Ok bs.
Proof.
  unfold encode.
  set (zeroes := count_leading (fun b => Byte.to_N b =? 0) bs).
  set (n := value 256 (List.map Byte.to_N bs)).
  pose proof (digits_bounded 58 ltac:(lia) n) as Hbound.
  assert (Hcount : count_leading (fun c => c =? LEADER)
                     (List.repeat LEADER zeroes
                      ++ List.map char_of_digit (digits 58 n)) = zeroes).
  { apply count_leading_repeat; [apply N.eqb_refl|].
    intros x rest E.
    destruct (N.eq_dec n 0) as [Hn|Hn].
    - rewrite Hn, digits_0 in E. discriminate.
    - destruct (digits_head 58 ltac:(lia) n Hn) as (d & ds & Hd & Hd0).
      rewrite Hd in E, Hbound. cbn [List.map] in E. injection E as <- _.
      apply Forall_inv in Hbound.
      destruct (char_of_digit d =? LEADER) eqn:El; [|reflexivity].
      now apply char_of_digit_leader in El. }
  unfold decode. rewrite Hcount.
  rewrite skipn_app, repeat_length, Nat.sub_diag, skipn_all2
    by (rewrite repeat_length; lia).
  rewrite skipn_O. cbn [app].
  rewrite digits_of_chars_of_digits by exact Hbound.
  rewrite value_digits by lia.
  f_equal. symmetry. apply bytes_canonical.
Qed.

Lemma isValidSolanaAddress_decode address :
  isValidSolanaAddress address =
  match decode address with
  | Ok decoded => Nat.eqb (length decoded) 32
  | Throw _ => false
  end.
Proof.
  unfold isValidSolanaAddress. destruct (decode address); reflexivity.
Qed.

Lemma PublicKey_toBytes_length pub :
  length pub = 32%nat ->
  exists bn, PublicKey_new pub = Ok bn /\
             length (PublicKey_toBytes bn) = 32%nat.
Proof.
  intros Hpub. unfold PublicKey_new, PublicKey_toBytes, PUBLIC_KEY_LENGTH.
  destruct (bytes_canonical pub) as [_ Hlen]. rewrite Hpub in Hlen.
  destruct (Nat.ltb_spec 32
              (length (digits 256 (value 256 (List.map Byte.to_N pub)))));
    [lia|].
  eexists. split; [reflexivity|].
  rewrite length_app, repeat_length, length_map. lia.
Qed.

(** C9.  [isValidSolanaAddress] answers [true] exactly for the strings
    that decode as base58 to 32 bytes; it answers [false], without
    throwing, when decoding throws and when it gives 31 or 33 bytes; and it
    answers [true] for the public address of a generated keypair. *)
Theorem isValidSolanaAddress_spec :
  (forall address,
      isValidSolanaAddress address = true <->
      exists decoded, decode address = Ok decoded /\ length decoded = 32%nat) /\
  (forall address e,
      decode address = Throw e -> isValidSolanaAddress address = false) /\
  (forall address decoded,
      decode address = Ok decoded ->
      length decoded = 31%nat \/ length decoded = 33%nat ->
      isValidSolanaAddress address = false) /\
  (forall E ent,
      (forall secret, length (getPublicKey E secret) = 32%nat) ->
      exists keypair,
        generateWalletKeypair E ent = Ok keypair /\
        isValidSolanaAddress (publicKey keypair) = true).
Proof.
  split; [|split; [|split]].
  - intros address. rewrite isValidSolanaAddress_decode.
    destruct (decode address) as [decoded|e].
    + split.
      * intros H. apply Nat.eqb_eq in H. eauto.
      * intros (d & Hd & Hlen). injection Hd as ->. now apply Nat.eqb_eq.
    + split; [discriminate|]. intros (d & Hd & _). discriminate.
  - intros address e H. now rewrite isValidSolanaAddress_decode, H.
  - intros address decoded H Hlen. rewrite isValidSolanaAddress_decode, H.
    apply Nat.eqb_neq. lia.
  - intros E ent HE. unfold generateWalletKeypair.
    destruct (PublicKey_toBytes_length
                (getPublicKey E (randomBytes 32 ent)) (HE _))
      as (bn & Hnew & Hlen).
    rewrite Hnew. cbn [bind]. eexists. split; [reflexivity|].
    cbn [publicKey]. unfold PublicKey_toBase58.
    rewrite isValidSolanaAddress_decode, decode_encode.
    now apply Nat.eqb_eq.
Qed.

Lemma isValidSolanaAddress_spec_witness :
  isValidSolanaAddress (List.repeat LEADER 32) = true /\
  isValidSolanaAddress (List.repeat LEADER 31) = false /\
  isValidSolanaAddress (List.repeat LEADER 33) = false /\
  isValidSolanaAddress (lit "0OIl") = false /\
  exists keypair,
    generateWalletKeypair toy_ed25519 CodecSample.dice = Ok keypair /\
    isValidSolanaAddress (publicKey keypair) = true.
Proof.
  destruct isValidSolanaAddress_spec as (H1 & H2 & H3 & H4).
  split; [|split; [|split; [|split]]].
  - apply H1. exists (List.repeat x00 32). split; reflexivity.
  - apply (H3 _ (List.repeat x00 31)); [reflexivity | left; reflexivity].
  - apply (H3 _ (List.repeat x00 33)); [reflexivity | right; reflexivity].
  - apply (H2 _ NonBase58Character). reflexivity.
  - apply H4. intros secret. cbn [toy_ed25519 getPublicKey].
    rewrite length_firstn, length_app, repeat_length. lia.
Defined.

End Base58Facts.

(** ** More on the codec *)

Module CodecMore.
Import Js Buffer Radix Base58 Codec.
Import JsFacts BufferFacts Utf8Facts CodecFacts RadixFacts Base58Facts.

Lemma toString_hex_length bs : length (toString_hex bs) = (2 * length bs)%nat.
Proof.
  induction bs as [|b bs IH]; [reflexivity|].
  cbn [toString_hex List.flat_map hex_of_byte app length].
  fold (toString_hex bs). rewrite IH. lia.
Qed.

(** The blob [encrypt] builds. *)
Lemma encrypt_parts C env ent key text :
  NodeCrypto_ok C -> getEncryptionKey C env = Ok key ->
  exists blob,
    encrypt C env ent text = Ok blob /\
    blob = toString_hex (randomBytes 16 ent) ++ [COLON]
           ++ toString_hex
                (gcm_tag C key (randomBytes 16 ent)
                   (gcm_crypt C {| cipher_key := key;
                                   cipher_iv := randomBytes 16 ent |}
                      (utf8_encode text)))
           ++ [COLON]
           ++ toString_hex
                (gcm_crypt C {| cipher_key := key;
                                cipher_iv := randomBytes 16 ent |}
                   (utf8_encode text)).
Proof.
  intros HC Hkey. unfold encrypt. rewrite Hkey. cbn [bind].
  rewrite (createCipheriv_ok C key _ HC (key_length C env key HC Hkey)
             (randomBytes_length 16 ent)).
  cbn [bind]. eexists. split; [reflexivity|].
  cbn [toString_hex List.flat_map]. now rewrite app_nil_r.
Qed.

(** X1.  The blob returned by [encrypt] has exactly three colon-separated
    fields: the random IV, the tag and the ciphertext, in lower-case
    hexadecimal, of 32, 32 and twice-the-UTF-8-length characters. *)
Theorem encrypt_blob_format C env ent key text :
  NodeCrypto_ok C -> getEncryptionKey C env = Ok key ->
  exists blob,
    encrypt C env ent text = Ok blob /\
    let iv := randomBytes 16 ent in
    let ciphertext :=
      gcm_crypt C {| cipher_key := key; cipher_iv := iv |} (utf8_encode text) in
    let authTag := gcm_tag C key iv ciphertext in
    split COLON blob
      = [toString_hex iv; toString_hex authTag; toString_hex ciphertext] /\
    length (toString_hex iv) = 32%nat /\
    length (toString_hex authTag) = 32%nat /\
    length (toString_hex ciphertext) = (2 * length (utf8_encode text))%nat.
Proof.
  intros HC Hkey.
  destruct (encrypt_parts C env ent key text HC Hkey) as (blob & He & Hb).
  exists blob. split; [exact He|]. cbv zeta. rewrite Hb.
  split; [apply split_blob|].
  rewrite !toString_hex_length, randomBytes_length, gcm_crypt_length,
    (gcm_tag_length C HC). auto.
Qed.

Lemma encrypt_blob_format_witness :
  exists blob,
    encrypt toy_crypto CodecSample.configured CodecSample.dice (lit "a:b") = Ok blob /\
    length (split COLON blob) = 3%nat.
Proof.
  destruct (encrypt_blob_format toy_crypto CodecSample.configured CodecSample.dice
              _ (lit "a:b") toy_crypto_ok configured_key)
    as (blob & He & Hs & _).
  exists blob. split; [exact He|]. rewrite Hs. reflexivity.
Defined.

(** X2.  Whatever the text, [decrypt] does not throw on what [encrypt] returned
    under the same configuration: it gives the text as it reads after being
    written to UTF-8 and read back. *)
Theorem decrypt_after_encrypt C env ent key text :
  NodeCrypto_ok C -> getEncryptionKey C env = Ok key ->
  exists blob,
    encrypt C env ent text = Ok blob /\
    decrypt C env blob = Ok (toString_utf8 (utf8_encode text)).
Proof.
  intros HC Hkey.
  destruct (encrypt_parts C env ent key text HC Hkey) as (blob & He & Hb).
  exists blob. split; [exact He|]. rewrite Hb.
  rewrite (decrypt_blob C env key) by
    (auto using randomBytes_length; apply (gcm_tag_length C HC)).
  rewrite (proj2 (bytes_eqb_eq _ _) eq_refl).
  now rewrite gcm_crypt_involutive.
Qed.

Lemma decrypt_after_encrypt_witness :
  exists blob,
    encrypt toy_crypto CodecSample.configured CodecSample.dice [0xDC00; 97] = Ok blob /\
    decrypt toy_crypto CodecSample.configured blob = Ok [0xFFFD; 97].
Proof.
  exact (decrypt_after_encrypt toy_crypto CodecSample.configured CodecSample.dice
           _ [0xDC00; 97] toy_crypto_ok configured_key).
Defined.

(** X3.  No tag length is fixed when the decipher is created, so [decrypt]
    accepts a blob whose tag field holds only the first 4, 8 or 12 to 16
    bytes of the tag. *)
Theorem decrypt_accepts_shortened_tag C env key iv ct n :
  NodeCrypto_ok C -> getEncryptionKey C env = Ok key ->
  length iv = 16%nat -> valid_gcm_tag_length n = true ->
  decrypt C env (toString_hex iv ++ [COLON]
                   ++ toString_hex (firstn n (gcm_tag C key iv ct))
                   ++ [COLON] ++ toString_hex ct)
  = Ok (toString_utf8 (gcm_crypt C {| cipher_key := key; cipher_iv := iv |} ct)).
Proof.
  intros HC Hkey Hiv Hn.
  assert (Hn16 : (n <= 16)%nat).
  { unfold valid_gcm_tag_length in Hn.
    apply orb_true_iff in Hn as [Hn|Hn].
    - apply orb_true_iff in Hn as [Hn|Hn]; apply Nat.eqb_eq in Hn; lia.
    - apply andb_true_iff in Hn as [_ Hn]. apply Nat.leb_le in Hn. lia. }
  assert (Hlen : length (firstn n (gcm_tag C key iv ct)) = n).
  { rewrite length_firstn, (gcm_tag_length C HC). lia. }
  unfold decrypt. rewrite Hkey. cbn [bind].
  unfold COLON. rewrite split_blob, !from_hex_toString_hex.
  rewrite (createCipheriv_ok C key iv HC (key_length C env key HC Hkey) Hiv).
  cbn [bind]. unfold setAuthTag. rewrite Hlen, Hn. cbn [bind].
  rewrite update_hex_input_hex. cbn [bind].
  unfold tag_verifies, getAuthTag. cbn [cipher_key cipher_iv].
  rewrite Hlen. now rewrite (proj2 (bytes_eqb_eq _ _) eq_refl).
Qed.

Lemma decrypt_accepts_shortened_tag_witness :
  decrypt toy_crypto CodecSample.configured
    (toString_hex (randomBytes 16 CodecSample.dice) ++ [COLON]
     ++ toString_hex
          (firstn 4 (gcm_tag toy_crypto
                       (sha256 toy_crypto
                          (utf8_encode (lit "correct horse battery staple")))
                       (randomBytes 16 CodecSample.dice) [x01; x02]))
     ++ [COLON] ++ toString_hex [x01; x02])
  = Ok (toString_utf8
          (gcm_crypt toy_crypto
             {| cipher_key := sha256 toy_crypto
                                (utf8_encode (lit "correct horse battery staple"));
                cipher_iv := randomBytes 16 CodecSample.dice |} [x01; x02])).
Proof.
  apply (decrypt_accepts_shortened_tag toy_crypto CodecSample.configured _ _ _ 4
           toy_crypto_ok configured_key).
  - vm_compute. reflexivity.
  - vm_compute. reflexivity.
Defined.

End CodecMore.

(** ** More on wallets and addresses *)

Module WalletMore.
Import Js Buffer Radix Base58 Codec.
Import JsFacts BufferFacts Utf8Facts CodecFacts RadixFacts Base58Facts.

Lemma count_leading_le {A} (p : A -> bool) l :
  (count_leading p l <= length l)%nat.
Proof.
  induction l as [|a l IH]; cbn; [lia|]. destruct (p a); cbn; lia.
Qed.

(** A 32-byte key is what [toBytes] gives back for its number. *)
Lemma PublicKey_toBytes_value pub :
  length pub = 32%nat ->
  PublicKey_toBytes (value 256 (List.map Byte.to_N pub)) = pub.
Proof.
  intros Hpub. unfold PublicKey_toBytes, PUBLIC_KEY_LENGTH.
  destruct (bytes_canonical pub) as [Hcanon _].
  set (zeroes := count_leading (fun b => Byte.to_N b =? 0) pub) in *.
  set (b := List.map byte_of_N (digits 256 (value 256 (List.map Byte.to_N pub)))) in *.
  assert (Hlen : (zeroes + length b = 32)%nat).
  { pose proof (f_equal length Hcanon) as Hl.
    rewrite length_app, repeat_length, Hpub in Hl. lia. }
  replace (32 - length b)%nat with zeroes by lia.
  symmetry. exact Hcanon.
Qed.

(** X4.  The two strings of a generated keypair decode to the public key and to
    the private scalar followed by the public key. *)
Theorem generated_keypair_decodes E ent :
  (forall secret, length (getPublicKey E secret) = 32%nat) ->
  exists keypair,
    generateWalletKeypair E ent = Ok keypair /\
    decode (publicKey keypair) = Ok (getPublicKey E (randomBytes 32 ent)) /\
    decode (privateKey keypair)
      = Ok (randomBytes 32 ent ++ getPublicKey E (randomBytes 32 ent)) /\
    length (randomBytes 32 ent ++ getPublicKey E (randomBytes 32 ent)) = 64%nat.
Proof.
  intros HE. unfold generateWalletKeypair.
  destruct (PublicKey_toBytes_length _ (HE (randomBytes 32 ent)))
    as (bn & Hnew & _).
  rewrite Hnew. cbn [bind]. eexists. split; [reflexivity|].
  cbn [publicKey privateKey]. unfold PublicKey_toBase58.
  rewrite !decode_encode.
  assert (Hbn : bn = value 256 (List.map Byte.to_N
                                  (getPublicKey E (randomBytes 32 ent)))).
  { unfold PublicKey_new in Hnew.
    destruct (Nat.ltb _ _); [discriminate|]. now injection Hnew. }
  rewrite Hbn, PublicKey_toBytes_value by apply HE.
  repeat split. rewrite length_app, randomBytes_length, HE. reflexivity.
Qed.

Lemma toy_ed25519_length secret : length (getPublicKey toy_ed25519 secret) = 32%nat.
Proof.
  cbn [toy_ed25519 getPublicKey].
  rewrite length_firstn, length_app, repeat_length. lia.
Qed.

Lemma generated_keypair_decodes_witness :
  exists keypair,
    generateWalletKeypair toy_ed25519 CodecSample.dice = Ok keypair /\
    decode (publicKey keypair)
      = Ok (getPublicKey toy_ed25519 (randomBytes 32 CodecSample.dice)).
Proof.
  destruct (generated_keypair_decodes toy_ed25519 CodecSample.dice
              toy_ed25519_length) as (kp & H1 & H2 & _).
  exists kp. split; assumption.
Defined.

(** *** Characters of an encoded string *)

Lemma ALPHABET_ascii : Forall (fun c => c < 0x80) ALPHABET.
Proof.
  apply List.Forall_forall. intros c Hc.
  assert (Hall : forallb (fun c => c <? 0x80) ALPHABET = true)
    by (vm_compute; reflexivity).
  rewrite forallb_forall in Hall. apply N.ltb_lt, Hall, Hc.
Qed.

Lemma char_of_digit_ascii d : char_of_digit d < 0x80.
Proof.
  unfold char_of_digit.
  destruct (List.nth_in_or_default (N.to_nat d) ALPHABET LEADER) as [Hin | ->].
  - pose proof ALPHABET_ascii as H. rewrite List.Forall_forall in H. now apply H.
  - unfold LEADER. lia.
Qed.

Lemma encode_ascii bs : Forall (fun c => c < 0x80) (encode bs).
Proof.
  unfold encode. apply Forall_app. split.
  - apply List.Forall_forall. intros c Hc. apply repeat_spec in Hc as ->.
    unfold LEADER. lia.
  - apply List.Forall_forall. intros c Hc.
    apply List.in_map_iff in Hc as (d & <- & _). apply char_of_digit_ascii.
Qed.

(** X5.  The private key of a generated wallet, encrypted and decrypted under
    one configuration, comes back unchanged. *)
Theorem wallet_private_key_round_trip C E env ent_wallet ent_iv key :
  NodeCrypto_ok C -> getEncryptionKey C env = Ok key ->
  (forall secret, length (getPublicKey E secret) = 32%nat) ->
  exists keypair blob,
    generateWalletKeypair E ent_wallet = Ok keypair /\
    encrypt C env ent_iv (privateKey keypair) = Ok blob /\
    decrypt C env blob = Ok (privateKey keypair).
Proof.
  intros HC Hkey HE. unfold generateWalletKeypair.
  destruct (PublicKey_toBytes_length _ (HE (randomBytes 32 ent_wallet)))
    as (bn & Hnew & _).
  rewrite Hnew. cbn [bind].
  set (kp := {| publicKey := PublicKey_toBase58 bn;
                privateKey := encode (randomBytes 32 ent_wallet
                                        ++ getPublicKey E (randomBytes 32 ent_wallet)) |}).
  assert (Hwf : isWellFormed (privateKey kp) = true)
    by apply isWellFormed_ascii, encode_ascii.
  destruct (decrypt_encrypt_utf8 C env ent_iv key (privateKey kp) HC Hkey)
    as (blob & He & Hd).
  exists kp, blob. split; [reflexivity|]. split; [exact He|].
  now rewrite Hd, utf8_round_trip.
Qed.

Lemma wallet_private_key_round_trip_witness :
  exists keypair blob,
    generateWalletKeypair toy_ed25519 CodecSample.dice = Ok keypair /\
    encrypt toy_crypto CodecSample.configured CodecSample.dice (privateKey keypair)
      = Ok blob /\
    decrypt toy_crypto CodecSample.configured blob = Ok (privateKey keypair).
Proof.
  exact (wallet_private_key_round_trip toy_crypto toy_ed25519
           CodecSample.configured CodecSample.dice CodecSample.dice _
           toy_crypto_ok configured_key toy_ed25519_length).
Defined.

End WalletMore.

(** ** The shape of a valid address *)

Module AddressShape.
Import Js Buffer Radix Base58 Codec.
Import JsFacts BufferFacts RadixFacts Base58Facts WalletMore.

Lemma index_of_spec c l i j :
  index_of c l i = Some j -> In c l /\ i <= j < i + N.of_nat (length l).
Proof.
  revert i. induction l as [|a l IH]; intros i; cbn [index_of]; [discriminate|].
  destruct (N.eqb_spec a c) as [->|Hne].
  - intros H. injection H as <-. split; [now left|]. cbn [length]. lia.
  - intros H. apply IH in H as [Hin Hj]. split; [now right|].
    cbn [length]. lia.
Qed.

Lemma digit_of_char_spec c d :
  digit_of_char c = Some d ->
  In c ALPHABET /\ d < 58 /\ (d = 0 -> c = LEADER).
Proof.
  intros H. pose proof (index_of_spec _ _ _ _ H) as [Hin Hd].
  split; [exact Hin|]. split.
  - change (N.of_nat (length ALPHABET)) with 58 in Hd. lia.
  - intros ->. unfold digit_of_char in H.
    change ALPHABET with (LEADER :: List.tl ALPHABET) in H.
    cbn [index_of] in H. destruct (N.eqb_spec LEADER c) as [E|_]; [now symmetry|].
    apply index_of_spec in H. lia.
Qed.

Lemma digits_of_chars_spec s ds :
  digits_of_chars s = Some ds ->
  length ds = length s /\
  Forall (fun d => d < 58) ds /\
  Forall (fun c => In c ALPHABET) s /\
  (forall c rest, s = c :: rest -> c <> LEADER ->
     exists d ds', ds = d :: ds' /\ d <> 0).
Proof.
  revert ds. induction s as [|c s IH]; intros ds; cbn [digits_of_chars].
  - intros H. injection H as <-. repeat split; try constructor. discriminate.
  - destruct (digit_of_char c) as [d|] eqn:Ed; [|discriminate].
    destruct (digits_of_chars s) as [ds'|]; [|discriminate].
    intros H. injection H as <-.
    destruct (IH ds' eq_refl) as (Hlen & Hb & Ha & _).
    apply digit_of_char_spec in Ed as (Hin & Hd & H0).
    repeat split; try (constructor; assumption).
    + cbn [length]. now rewrite Hlen.
    + intros c' rest E Hne. injection E as <- _.
      exists d, ds'. split; [reflexivity|]. intros ->. now apply Hne, H0.
Qed.

Lemma value_lt_pow b ds :
  2 <= b -> Forall (fun d => d < b) ds -> value b ds < b ^ N.of_nat (length ds).
Proof.
  intros Hb. induction ds as [|d ds IH] using rev_ind; intros H.
  - cbn. lia.
  - apply Forall_app in H as [Hds Hd]. apply Forall_inv in Hd.
    specialize (IH Hds).
    rewrite value_snoc, length_app, Nat.add_comm. cbn [length Nat.add].
    rewrite Nat2N.inj_succ, N.pow_succ_r'. nia.
Qed.

Lemma value_ge_pow b d ds :
  d <> 0 -> b ^ N.of_nat (length ds) <= value b (d :: ds).
Proof. intros Hd. rewrite value_cons. nia. Qed.

(** How many digits a number has, in terms of its size. *)
Lemma digits_length_bounds b n :
  2 <= b ->
  n < b ^ N.of_nat (length (digits b n)) /\
  (n <> 0 -> b ^ N.of_nat (Nat.pred (length (digits b n))) <= n).
Proof.
  intros Hb. split.
  - rewrite <- (value_digits b Hb n) at 1.
    apply value_lt_pow; [exact Hb | now apply digits_bounded].
  - intros Hn. destruct (digits_head b Hb n Hn) as (d & rest & E & Hd).
    rewrite <- (value_digits b Hb n) at 2. rewrite E. cbn [length Nat.pred].
    now apply value_ge_pow.
Qed.

Lemma decode_spec s bs :
  decode s = Ok bs ->
  exists ds,
    digits_of_chars (skipn (count_leading (fun c => c =? LEADER) s) s) = Some ds /\
    bs = List.repeat x00 (count_leading (fun c => c =? LEADER) s)
         ++ List.map byte_of_N (digits 256 (value 58 ds)).
Proof.
  unfold decode. intros H.
  destruct (digits_of_chars _) as [ds|]; [|discriminate].
  injection H as <-. eauto.
Qed.

Lemma pow_58_256 m : (m <= 32)%nat -> 256 ^ N.of_nat m <= 58 ^ N.of_nat (12 + m).
Proof.
  intros Hm.
  assert (Hall : forallb (fun k => 256 ^ N.of_nat k <=? 58 ^ N.of_nat (12 + k))
                   (seq 0 33) = true) by (vm_compute; reflexivity).
  rewrite forallb_forall in Hall. apply N.leb_le, Hall, in_seq. lia.
Qed.

(** X6.  A string accepted by [isValidSolanaAddress] has 32 to 44 characters,
    all of them from the base-58 alphabet. *)
Theorem valid_address_shape address :
  isValidSolanaAddress address = true ->
  (32 <= length address <= 44)%nat /\
  Forall (fun c => In c ALPHABET) address.
Proof.
  intros Hvalid. rewrite isValidSolanaAddress_decode in Hvalid.
  destruct (decode address) as [bs|] eqn:Hdec; [|discriminate].
  apply Nat.eqb_eq in Hvalid.
  destruct (decode_spec _ _ Hdec) as (ds & Hds & Hbs).
  set (zeroes := count_leading (fun c => c =? LEADER) address) in *.
  destruct (count_leading_split (fun c => c =? LEADER) address)
    as (Hsplit & Hz & Hlead). fold zeroes in Hsplit, Hz, Hlead.
  destruct (digits_of_chars_spec _ _ Hds) as (Hlen & Hbound & Halpha & Hhead).
  pose proof (count_leading_le (fun c => c =? LEADER) address) as Hzle.
  fold zeroes in Hzle.
  assert (Hfirst : length (firstn zeroes address) = zeroes)
    by (apply firstn_length_le, Hzle).
  set (v := value 58 ds) in *.
  set (m := length (digits 256 v)).
  assert (Hm : (zeroes + m = 32)%nat).
  { rewrite <- Hvalid, Hbs, length_app, repeat_length, length_map. reflexivity. }
  assert (Htotal : length address = (zeroes + length ds)%nat).
  { rewrite Hsplit at 1. rewrite length_app, Hfirst, Hlen. reflexivity. }
  split.
  - rewrite Htotal.
    destruct (skipn zeroes address) as [|c rest] eqn:Hrest.
    + destruct ds; [|discriminate]. subst v m. cbn in Hm. cbn [length]. lia.
    + assert (Hc : c <> LEADER).
      { intros ->. specialize (Hlead LEADER rest eq_refl).
        cbn beta in Hlead. now rewrite N.eqb_refl in Hlead. }
      destruct (Hhead c rest eq_refl Hc) as (d & ds' & -> & Hd).
      pose proof (value_ge_pow 58 d ds' Hd) as Hlow. fold v in Hlow.
      pose proof (value_lt_pow 58 (d :: ds') ltac:(lia) Hbound) as Hhigh.
      fold v in Hhigh.
      assert (Hv : v <> 0).
      { pose proof (N.pow_nonzero 58 (N.of_nat (length ds')) ltac:(lia)). lia. }
      destruct (digits_length_bounds 256 v ltac:(lia)) as [Hvhigh Hvlow].
      specialize (Hvlow Hv). fold m in Hvhigh, Hvlow.
      cbn [length] in *. split.
      * (* at least as many digits as bytes *)
        destruct (Nat.le_gt_cases m (S (length ds'))) as [|Hgt]; [lia|].
        exfalso.
        assert (58 ^ N.of_nat (S (length ds')) <= 256 ^ N.of_nat (Nat.pred m)).
        { etransitivity.
          - apply N.pow_le_mono_r; [lia|]. instantiate (1 := N.of_nat (Nat.pred m)). lia.
          - apply N.pow_le_mono_l. lia. }
        lia.
      * (* at most 44 characters *)
        destruct (Nat.le_gt_cases (zeroes + S (length ds')) 44) as [|Hgt];
          [assumption|]. exfalso.
        assert (58 ^ N.of_nat (12 + m) <= 58 ^ N.of_nat (length ds')).
        { apply N.pow_le_mono_r; lia. }
        pose proof (pow_58_256 m ltac:(lia)). lia.
  - rewrite Hsplit. apply Forall_app. split; [|exact Halpha].
    eapply Forall_impl; [exact Hz|]. intros c Hc. cbn beta in Hc.
    apply N.eqb_eq in Hc as ->. now left.
Qed.

Lemma valid_address_shape_witness :
  (32 <= length (List.repeat LEADER 32) <= 44)%nat /\
  Forall (fun c => In c ALPHABET) (List.repeat LEADER 32).
Proof.
  apply (valid_address_shape (List.repeat LEADER 32)). vm_compute. reflexivity.
Defined.

End AddressShape.

(** ** More on the aggregator *)

Module ActivityMore.
Import Js Storage JsFacts StorageFacts.

Lemma slice0_take {A} limit (l : list A) :
  (0 <= limit)%Z -> slice0 limit l = take (Z.to_nat limit) l.
Proof. intros H. unfold slice0. destruct (Z.ltb_spec limit 0); [lia|reflexivity]. Qed.

(** X7.  With a limit [L >= 0] and some bot mentioned, the feed has
    [min L (posts + trades + logs)] items: nothing is lost but by the cut
    at [L]. *)
Theorem getCombinedActivity_length db limit :
  (0 <= limit)%Z ->
  allBotIds (fetch db limit) <> ∅ ->
  length (getCombinedActivity db limit)
  = Nat.min (Z.to_nat limit)
      (length (recentPosts (fetch db limit))
       + length (recentTrades (fetch db limit))
       + length (recentLogs (fetch db limit))).
Proof.
  intros Hlimit Hne. rewrite getCombinedActivity_unfold by exact Hne.
  rewrite slice0_take by exact Hlimit.
  rewrite length_take, (Permutation_length (sort_perm byCreatedAtDesc _)).
  now rewrite normalize_length.
Qed.

Lemma getCombinedActivity_length_witness :
  length (getCombinedActivity Sample.mixed_db 3) = 3%nat.
Proof.
  rewrite (getCombinedActivity_length Sample.mixed_db 3).
  - reflexivity.
  - lia.
  - vm_compute. discriminate.
Defined.

Lemma StronglySorted_app_elem {A} (R : A -> A -> Prop) (l1 l2 : list A) x y :
  StronglySorted R (l1 ++ l2) -> x ∈ l1 -> y ∈ l2 -> R x y.
Proof.
  induction l1 as [|a l1 IH]; intros Hs Hx Hy; [set_solver|].
  cbn [app] in Hs. apply StronglySorted_inv in Hs as [Hs Ha].
  apply elem_of_cons in Hx as [->|Hx]; [|now apply IH].
  rewrite Forall_forall in Ha. apply Ha, elem_of_app. now right.
Qed.

(** X8.  The feed keeps the newest items: together with the items it leaves
    out, the result is a permutation of the items built from the fetched
    posts, trades and audit logs, each with the creation time of its
    record, and no item left out has a later creation time than a returned
    one, a missing creation time being read as 0. *)
Theorem getCombinedActivity_keeps_newest db limit :
  let F := fetch db limit in
  let L := resolve db (allBotIds F) in
  exists dropped,
    getCombinedActivity db limit ++ dropped
      ≡ₚ (postItem L <$> recentPosts F)
         ++ (tradeItem L <$> recentTrades F)
         ++ (logItem L <$> recentLogs F) /\
    (forall p, createdAt (postItem L p) = BotPost.createdAt p) /\
    (forall t, createdAt (tradeItem L t) = Trade.createdAt t) /\
    (forall l, createdAt (logItem L l) = AuditLog.createdAt l) /\
    forall kept left_out,
      kept ∈ getCombinedActivity db limit -> left_out ∈ dropped ->
      (default 0 (createdAt left_out) <= default 0 (createdAt kept))%Z.
Proof.
  intros F L. change (_ ++ _ ++ _) with (normalize L F).
  destruct (decide (allBotIds F = ∅)) as [He|Hne].
  - exists (normalize L F).
    rewrite (getCombinedActivity_short_circuit db limit He).
    split; [reflexivity|]. do 3 (split; [reflexivity|]).
    intros kept left_out Hk. now apply elem_of_nil in Hk.
  - rewrite getCombinedActivity_unfold by exact Hne. fold F L.
    set (S := sort byCreatedAtDesc (normalize L F)).
    destruct (slice0_firstn limit S) as [n ->].
    exists (drop n S). split; [|do 3 (split; [reflexivity|])].
    + rewrite take_drop. apply sort_perm.
    + intros kept left_out Hk Hl.
      assert (Hs : StronglySorted (descending_by timeOf) S)
        by (apply (sort_desc timeOf); reflexivity).
      rewrite <- (take_drop n S) in Hs.
      pose proof (StronglySorted_app_elem _ _ _ _ _ Hs Hk Hl) as Hd.
      unfold descending_by in Hd. now rewrite !timeOf_createdAt in Hd.
Qed.

Lemma getCombinedActivity_keeps_newest_witness :
  exists dropped,
    getCombinedActivity Sample.mixed_db 2 ++ dropped
      ≡ₚ normalize (resolve Sample.mixed_db (allBotIds (fetch Sample.mixed_db 2)))
           (fetch Sample.mixed_db 2) /\
    forall kept left_out,
      kept ∈ getCombinedActivity Sample.mixed_db 2 -> left_out ∈ dropped ->
      (default 0 (createdAt left_out) <= default 0 (createdAt kept))%Z.
Proof.
  destruct (getCombinedActivity_keeps_newest Sample.mixed_db 2)
    as (dropped & Hperm & _ & _ & _ & Hnew).
  exists dropped. split; [exact Hperm | exact Hnew].
Defined.

(** *** Ties *)

Lemma sort_insert_filter {A} (key : A -> Z) (cmp : A -> A -> Z) t x l :
  (forall a b, cmp a b = (key b - key a)%Z) ->
  List.filter (fun y => (key y =? t)%Z) (sort_insert cmp x l)
  = List.filter (fun y => (key y =? t)%Z) (x :: l).
Proof.
  intros Hcmp. induction l as [|y l IH]; [reflexivity|].
  cbn [sort_insert]. rewrite Hcmp.
  destruct (Z.leb_spec (key y - key x) 0) as [Hle|Hgt]; [reflexivity|].
  cbn [List.filter] in *. rewrite IH.
  destruct (Z.eqb_spec (key y) t) as [Hy|Hy];
    destruct (Z.eqb_spec (key x) t) as [Hx|Hx]; try reflexivity. lia.
Qed.

Lemma sort_filter {A} (key : A -> Z) (cmp : A -> A -> Z) t l :
  (forall a b, cmp a b = (key b - key a)%Z) ->
  List.filter (fun y => (key y =? t)%Z) (sort cmp l)
  = List.filter (fun y => (key y =? t)%Z) l.
Proof.
  intros Hcmp. induction l as [|x l IH]; [reflexivity|].
  unfold sort in *. cbn [List.fold_right].
  rewrite (sort_insert_filter key) by exact Hcmp.
  cbn [List.filter]. now rewrite IH.
Qed.

(** X9.  Items with the same creation time stay in the order in which they were
    pushed: posts, then trades, then audit logs, each batch in the order it
    was fetched. *)
Theorem getCombinedActivity_ties db limit t :
  let F := fetch db limit in
  let L := resolve db (allBotIds F) in
  allBotIds F <> ∅ ->
  (Z.of_nat (length (normalize L F)) <= limit)%Z ->
  List.filter (fun item => (timeOf item =? t)%Z) (getCombinedActivity db limit)
  = List.filter (fun item => (timeOf item =? t)%Z) (normalize L F).
Proof.
  intros F L Hne Hlen. rewrite getCombinedActivity_unfold by exact Hne.
  fold F L. rewrite slice0_all.
  - apply (sort_filter timeOf). reflexivity.
  - now rewrite (Permutation_length (sort_perm byCreatedAtDesc _)).
Qed.

Lemma getCombinedActivity_ties_witness :
  List.filter (fun item => (timeOf item =? 70)%Z)
    (getCombinedActivity SampleMore.tie_db 10)
  = List.filter (fun item => (timeOf item =? 70)%Z)
      (normalize (resolve SampleMore.tie_db (allBotIds (fetch SampleMore.tie_db 10)))
         (fetch SampleMore.tie_db 10)).
Proof.
  apply (getCombinedActivity_ties SampleMore.tie_db 10 70).
  - vm_compute. discriminate.
  - vm_compute. discriminate.
Defined.

(** *** Lookups that succeed *)

Lemma foldl_insert_lookup_notin {A V} (key : A -> Z) (val : A -> V)
    (l : list A) (m : gmap Z V) i :
  i ∉ key <$> l ->
  foldl (fun m a => <[key a := val a]> m) m l !! i = m !! i.
Proof.
  revert m. induction l as [|a l IH]; intros m Hi; [reflexivity|].
  cbn [foldl]. rewrite fmap_cons, not_elem_of_cons in Hi. destruct Hi as [Hne Hi].
  rewrite IH by exact Hi. now apply lookup_insert_ne.
Qed.

(** Rows with pairwise distinct keys are all found in the object filled
    from them. *)
Lemma foldl_insert_lookup {A V} (key : A -> Z) (val : A -> V)
    (l : list A) (m : gmap Z V) a :
  NoDup (key <$> l) -> a ∈ l ->
  foldl (fun m a => <[key a := val a]> m) m l !! key a = Some (val a).
Proof.
  revert m. induction l as [|x l IH]; intros m Hnd Ha; [set_solver|].
  rewrite fmap_cons in Hnd. apply NoDup_cons in Hnd as [Hx Hnd].
  cbn [foldl]. apply elem_of_cons in Ha as [->|Ha].
  - rewrite foldl_insert_lookup_notin by exact Hx. apply lookup_insert_eq.
  - now apply IH.
Qed.

(** When the bot query returns the row of a bot (one row per id) and the
    user query the row of its owner, the object of bots and the object of
    users hold them. *)
Lemma resolve_lookups db ids b u :
  NoDup (BotRow.id <$> bots_inArray db ids) ->
  b ∈ bots_inArray db ids ->
  (forall uids, NoDup (UserRow.id <$> users_inArray db uids)) ->
  (forall uids, BotRow.userId b ∈ uids -> u ∈ users_inArray db uids) ->
  UserRow.id u = BotRow.userId b ->
  botMap (resolve db ids) !! BotRow.id b
    = Some {| info_botName := BotRow.botName b; info_userId := BotRow.userId b |} /\
  userMap (resolve db ids) !! BotRow.userId b = Some (UserRow.username u).
Proof.
  intros Hnd Hb Hund Hu Hid. unfold resolve. cbn [botMap userMap].
  set (bm := foldl _ ∅ (bots_inArray db ids)).
  assert (Hbm : bm !! BotRow.id b
                = Some {| info_botName := BotRow.botName b;
                          info_userId := BotRow.userId b |}).
  { unfold bm.
    apply (foldl_insert_lookup BotRow.id
             (fun b => {| info_botName := BotRow.botName b;
                          info_userId := BotRow.userId b |})); assumption. }
  split; [exact Hbm|].
  set (uids := list_to_set _ : gset Z).
  assert (Hin : BotRow.userId b ∈ uids).
  { unfold uids. apply elem_of_list_to_set, list_elem_of_fmap.
    eexists (_, _). split; [|apply elem_of_map_to_list; exact Hbm]. reflexivity. }
  destruct (decide (uids = ∅)) as [E|_];
    [rewrite E in Hin; now apply not_elem_of_empty in Hin|].
  rewrite <- Hid.
  apply (foldl_insert_lookup UserRow.id UserRow.username); auto.
Qed.

(** X10.  A post, a trade or a bot's audit log whose bot and owner are returned
    by the lookups, with non-empty names, carries the bot's name and the
    owner's username. *)
Theorem names_resolved db limit b u :
  let F := fetch db limit in
  let L := resolve db (allBotIds F) in
  NoDup (BotRow.id <$> bots_inArray db (allBotIds F)) ->
  b ∈ bots_inArray db (allBotIds F) ->
  (forall uids, NoDup (UserRow.id <$> users_inArray db uids)) ->
  (forall uids, BotRow.userId b ∈ uids -> u ∈ users_inArray db uids) ->
  UserRow.id u = BotRow.userId b ->
  BotRow.botName b <> [] -> UserRow.username u <> [] ->
  (forall p, BotPost.botId p = BotRow.id b ->
     botName (postItem L p) = BotRow.botName b /\
     ownerUsername (postItem L p) = UserRow.username u) /\
  (forall t, Trade.botId t = BotRow.id b ->
     botName (tradeItem L t) = BotRow.botName b /\
     ownerUsername (tradeItem L t) = UserRow.username u) /\
  (forall l, AuditLog.botId l = Some (BotRow.id b) -> BotRow.id b <> 0%Z ->
     botName (logItem L l) = BotRow.botName b /\
     ownerUsername (logItem L l) = UserRow.username u).
Proof.
  intros F L Hnd Hb Hund Hu Hid Hname Huname.
  destruct (resolve_lookups db (allBotIds F) b u Hnd Hb Hund Hu Hid)
    as [Hbm Hum]. fold L in Hbm, Hum. clearbody L.
  assert (Hn : forall d, or_default (Some (BotRow.botName b)) d = BotRow.botName b)
    by (intros d; cbn; destruct (BotRow.botName b); [contradiction|reflexivity]).
  assert (Ho : or_default (Some (UserRow.username u)) Unknown = UserRow.username u)
    by (cbn; destruct (UserRow.username u); [contradiction|reflexivity]).
  split; [|split].
  - intros p Hp. unfold postItem. cbn [botName ownerUsername].
    rewrite Hp. rewrite Hbm. cbn [fmap option_fmap option_map ownerOf info_botName info_userId].
    now rewrite Hum, Hn, Ho.
  - intros t Ht. unfold tradeItem. cbn [botName ownerUsername].
    rewrite Ht. rewrite Hbm. cbn [fmap option_fmap option_map ownerOf info_botName info_userId].
    now rewrite Hum, Hn, Ho.
  - intros l Hl Hnz. unfold logItem. cbn [botName ownerUsername].
    rewrite Hl. cbn [truthy_num].
    change (default 0%Z (Some (BotRow.id b))) with (BotRow.id b).
    destruct (Z.eqb_spec (BotRow.id b) 0) as [|_]; [contradiction|].
    cbn [negb]. rewrite Hbm.
    cbn [fmap option_fmap option_map ownerOf info_botName info_userId].
    now rewrite Hum, Hn, Ho.
Qed.

Lemma names_resolved_witness :
  botName (postItem (resolve Sample.mixed_db (allBotIds (fetch Sample.mixed_db 10)))
             (Sample.post 1 5 (Some 100%Z))) = lit "molty" /\
  ownerUsername (postItem (resolve Sample.mixed_db (allBotIds (fetch Sample.mixed_db 10)))
                   (Sample.post 1 5 (Some 100%Z))) = lit "alice".
Proof.
  apply (names_resolved Sample.mixed_db 10
           {| BotRow.id := 5; BotRow.botName := lit "molty"; BotRow.userId := 1 |}
           {| UserRow.id := 1; UserRow.username := lit "alice" |}).
  - vm_compute. repeat constructor; set_solver.
  - vm_compute. left.
  - intros uids. cbn.
    destruct (bool_decide (1%Z ∈ uids)); repeat constructor; set_solver.
  - intros uids Hin. cbn in *. rewrite bool_decide_eq_true_2 by exact Hin. left.
  - reflexivity.
  - discriminate.
  - discriminate.
  - reflexivity.
Defined.

(** *** Post content *)

(** X11.  The content shown for a post is the first 120 code units of the post's
    content. *)
Theorem post_content_truncated db limit item content tweetId postType status :
  item ∈ getCombinedActivity db limit ->
  details item = PostDetails (Some content) tweetId postType status ->
  (length content <= 120)%nat /\
  exists post full,
    post ∈ recentPosts (fetch db limit) /\
    BotPost.content post = Some full /\
    content = take 120 full.
Proof.
  intros Hitem Hd. apply getCombinedActivity_elem in Hitem.
  destruct Hitem as [(p & Hin & ->) | [(t & _ & ->) | (l & _ & ->)]];
    try discriminate Hd.
  unfold postItem in Hd. cbn [details] in Hd.
  destruct (BotPost.content p) as [full|] eqn:E; [|discriminate Hd].
  cbn in Hd. injection Hd as <- _ _ _.
  split; [rewrite length_take; lia|]. eauto.
Qed.

Lemma post_content_truncated_witness :
  (length (take 120 SampleMore.long_content) <= 120)%nat.
Proof.
  apply (post_content_truncated SampleMore.long_post_db 10
           (postItem (resolve SampleMore.long_post_db {[ 5%Z ]}) SampleMore.long_post)
           (take 120 SampleMore.long_content) (Some (lit "1790")) (lit "reply")
           (lit "posted")).
  - vm_compute. left.
  - reflexivity.
Defined.

(** *** Names *)

Lemma or_default_nonempty s d : d <> [] -> or_default s d <> [].
Proof.
  intros Hd. unfold or_default. destruct s as [[|c v]|]; cbn; auto; discriminate.
Qed.

Lemma ownerOf_nonempty L bot d : d <> [] -> ownerOf L bot d <> [].
Proof.
  intros Hd. unfold ownerOf. destruct bot; [|exact Hd].
  apply or_default_nonempty. discriminate.
Qed.

(** X12.  No returned item has an empty bot name or an empty owner name. *)
Theorem names_never_empty db limit item :
  item ∈ getCombinedActivity db limit ->
  botName item <> [] /\ ownerUsername item <> [].
Proof.
  intros Hitem. apply getCombinedActivity_elem in Hitem.
  destruct Hitem as [(p & _ & ->) | [(t & _ & ->) | (l & _ & ->)]].
  - split; [apply or_default_nonempty | apply ownerOf_nonempty]; discriminate.
  - split; [apply or_default_nonempty | apply ownerOf_nonempty]; discriminate.
  - split; [apply or_default_nonempty; discriminate|].
    unfold logItem. cbn [ownerUsername]. apply ownerOf_nonempty.
    destruct (truthy_num (AuditLog.userId l)); [|discriminate].
    apply or_default_nonempty. discriminate.
Qed.

Lemma names_never_empty_witness :
  botName (tradeItem (resolve Sample.mixed_db {[ 5%Z; 7%Z ]})
             (Sample.trade 1 7 (Some 70%Z))) <> [] /\
  ownerUsername (tradeItem (resolve Sample.mixed_db {[ 5%Z; 7%Z ]})
                   (Sample.trade 1 7 (Some 70%Z))) <> [].
Proof.
  apply (names_never_empty Sample.mixed_db 10). vm_compute. right. left.
Defined.

End ActivityMore.

(** ** The other readers *)

Module ReaderFacts.
Import Js Storage Readers JsFacts StorageFacts ActivityMore.

Lemma length_zero_nil {A} (l : list A) : Nat.eqb (length l) 0 = true -> l = [].
Proof. destruct l; [reflexivity|discriminate]. Qed.

(** X13.  [getGlobalActivity] returns one entry for every fetched audit log, in
    the order fetched, whether or not any log mentions a bot. *)
Theorem getGlobalActivity_complete db limit :
  GlobalItem.log <$> getGlobalActivity db limit = recent_auditLogs db limit.
Proof.
  unfold getGlobalActivity.
  destruct (Nat.eqb (length (recent_auditLogs db limit)) 0) eqn:E.
  - apply length_zero_nil in E. now rewrite E.
  - rewrite <- list_fmap_compose. apply list_fmap_id.
Qed.

(** X14.  In [getGlobalActivity] a log without bot is named "System", a log
    without acting user is owned by "System", and no name is empty. *)
Theorem getGlobalActivity_names db limit item :
  item ∈ getGlobalActivity db limit ->
  (truthy_num (AuditLog.botId (GlobalItem.log item)) = false ->
     GlobalItem.botName item = System) /\
  (truthy_num (AuditLog.userId (GlobalItem.log item)) = false ->
     GlobalItem.ownerUsername item = System) /\
  GlobalItem.botName item <> [] /\
  GlobalItem.ownerUsername item <> [].
Proof.
  unfold getGlobalActivity.
  destruct (Nat.eqb (length (recent_auditLogs db limit)) 0); [set_solver|].
  intros Hitem. apply list_elem_of_fmap in Hitem as (l & -> & _).
  cbn [GlobalItem.log GlobalItem.botName GlobalItem.ownerUsername].
  repeat split.
  - now intros ->.
  - now intros ->.
  - destruct (truthy_num (AuditLog.botId l)); [|discriminate].
    apply or_default_nonempty. discriminate.
  - destruct (truthy_num (AuditLog.userId l)); [|discriminate].
    apply or_default_nonempty. discriminate.
Qed.

Lemma getGlobalActivity_names_witness :
  exists item,
    item ∈ getGlobalActivity Sample.system_only_db 10 /\
    GlobalItem.botName item = System /\ GlobalItem.ownerUsername item = System.
Proof.
  eexists. split; [vm_compute; left|].
  match goal with
  | |- GlobalItem.botName ?i = _ /\ _ =>
      destruct (getGlobalActivity_names Sample.system_only_db 10 i)
        as (Hb & Ho & _)
  end.
  - vm_compute. left.
  - split; [apply Hb | apply Ho]; reflexivity.
Defined.

(** [getRecentActivityByUser] returns nothing for a user without bots, and
    otherwise one entry per log the log query returns, in order. *)
Theorem getRecentActivityByUser_logs db userId limit :
  UserItem.log <$> getRecentActivityByUser db userId limit
  = match bots_named_by_user db userId with
    | [] => []
    | _ :: _ =>
        auditLogs_of_bots db
          (list_to_set (BotRow.id <$> bots_named_by_user db userId)) limit
    end.
Proof.
  unfold getRecentActivityByUser.
  destruct (bots_named_by_user db userId) as [|b bs] eqn:E; [reflexivity|].
  cbn [length Nat.eqb]. rewrite <- list_fmap_compose. apply list_fmap_id.
Qed.

(** X15.  When the user's bots have distinct non-zero ids and non-empty names,
    and the log query returns only logs of the bots asked for, every entry
    of [getRecentActivityByUser] carries the name of the user's bot the log
    belongs to. *)
Theorem getRecentActivityByUser_names db userId limit item :
  NoDup (BotRow.id <$> bots_named_by_user db userId) ->
  Forall (fun b => BotRow.id b <> 0%Z /\ BotRow.botName b <> [])
    (bots_named_by_user db userId) ->
  (forall ids n l, l ∈ auditLogs_of_bots db ids n ->
     exists i, AuditLog.botId l = Some i /\ i ∈ ids) ->
  item ∈ getRecentActivityByUser db userId limit ->
  exists b,
    b ∈ bots_named_by_user db userId /\
    AuditLog.botId (UserItem.log item) = Some (BotRow.id b) /\
    UserItem.botName item = BotRow.botName b.
Proof.
  intros Hnd Hbots Hlogs. unfold getRecentActivityByUser.
  destruct (Nat.eqb (length (bots_named_by_user db userId)) 0); [set_solver|].
  intros Hitem. apply list_elem_of_fmap in Hitem as (l & -> & Hl).
  apply Hlogs in Hl as (i & Hi & Hin).
  apply elem_of_list_to_set, list_elem_of_fmap in Hin as (b & -> & Hb).
  rewrite Forall_forall in Hbots. destruct (Hbots b Hb) as [Hnz Hname].
  exists b. split; [exact Hb|]. cbn [UserItem.log UserItem.botName].
  split; [exact Hi|]. rewrite Hi. cbn [truthy_num].
  change (default 0%Z (Some (BotRow.id b))) with (BotRow.id b).
  destruct (Z.eqb_spec (BotRow.id b) 0) as [|_]; [contradiction|]. cbn [negb].
  rewrite (foldl_insert_lookup BotRow.id BotRow.botName) by assumption.
  cbn. destruct (BotRow.botName b); [contradiction|reflexivity].
Qed.

Lemma getRecentActivityByUser_names_witness :
  exists b,
    b ∈ bots_named_by_user ReaderSample.db 1 /\
    Some 5%Z = Some (BotRow.id b) /\
    lit "molty" = BotRow.botName b.
Proof.
  apply (getRecentActivityByUser_names ReaderSample.db 1 20
           {| UserItem.log := Sample.log 8 (Some 5%Z) (Some 1%Z) (Some 40%Z);
              UserItem.botName := lit "molty" |}).
  - vm_compute. repeat constructor; set_solver.
  - vm_compute. repeat constructor; discriminate.
  - intros ids n l Hl. cbn in Hl.
    destruct (bool_decide (5%Z ∈ ids)) eqn:E; [|now apply elem_of_nil in Hl].
    apply list_elem_of_singleton in Hl as ->.
    exists 5%Z. split; [reflexivity|]. now apply bool_decide_eq_true in E.
  - vm_compute. left.
Defined.

(** *** Bots with their wallet and X account *)

Lemma walletMap_of_lookup wallets w :
  NoDup (WalletRow.botId <$> wallets) -> w ∈ wallets ->
  walletMap_of wallets !! WalletRow.botId w = Some (WalletRow.publicAddress w).
Proof. apply (foldl_insert_lookup WalletRow.botId WalletRow.publicAddress). Qed.

Lemma walletMap_of_missing wallets i :
  i ∉ WalletRow.botId <$> wallets -> walletMap_of wallets !! i = None.
Proof.
  intros H. unfold walletMap_of.
  rewrite (foldl_insert_lookup_notin WalletRow.botId WalletRow.publicAddress)
    by exact H.
  apply lookup_empty.
Qed.

Lemma xMap_of_lookup xs x :
  NoDup (XNameRow.botId <$> xs) -> x ∈ xs ->
  xMap_of xs !! XNameRow.botId x = Some x.
Proof. apply (foldl_insert_lookup XNameRow.botId (fun x => x)). Qed.

(** X16.  [getBotsByUserWithDetails] returns the user's bots, one entry each in
    the order of the query, every one with the balance "0.000000000". *)
Theorem getBotsByUserWithDetails_bots db userId :
  DetailedBot.bot <$> getBotsByUserWithDetails db userId = bots_by_user db userId /\
  Forall (fun item => DetailedBot.solBalance item = lit "0.000000000")
    (getBotsByUserWithDetails db userId).
Proof.
  unfold getBotsByUserWithDetails.
  destruct (Nat.eqb (length (bots_by_user db userId)) 0) eqn:E.
  - apply length_zero_nil in E. rewrite E. split; [reflexivity|constructor].
  - split.
    + rewrite <- list_fmap_compose. apply list_fmap_id.
    + apply Forall_fmap, Forall_true. reflexivity.
Qed.

(** X17.  In [getBotsByUserWithDetails], with one wallet row and one X-account
    row at most per bot, an entry carries the address of the bot's wallet
    row and the user name of its X-account row when they are not empty,
    and no address when the wallet query returned no row for the bot. *)
Theorem getBotsByUserWithDetails_details db userId item :
  let ids : gset Z := list_to_set (Bot.id <$> bots_by_user db userId) in
  NoDup (WalletRow.botId <$> botWallets_inArray db ids) ->
  NoDup (XNameRow.botId <$> botXNames_inArray db ids) ->
  item ∈ getBotsByUserWithDetails db userId ->
  (forall w, w ∈ botWallets_inArray db ids ->
     WalletRow.botId w = Bot.id (DetailedBot.bot item) ->
     WalletRow.publicAddress w <> [] ->
     DetailedBot.walletAddress item = Some (WalletRow.publicAddress w)) /\
  (Bot.id (DetailedBot.bot item) ∉ WalletRow.botId <$> botWallets_inArray db ids ->
     DetailedBot.walletAddress item = None) /\
  (forall x name, x ∈ botXNames_inArray db ids ->
     XNameRow.botId x = Bot.id (DetailedBot.bot item) ->
     XNameRow.xUsername x = Some name -> name <> [] ->
     DetailedBot.xUsername item = Some name).
Proof.
  intros ids Hw Hx. unfold getBotsByUserWithDetails.
  destruct (Nat.eqb (length (bots_by_user db userId)) 0); [set_solver|].
  fold ids. intros Hitem. apply list_elem_of_fmap in Hitem as (bot & -> & _).
  cbn [DetailedBot.bot DetailedBot.walletAddress DetailedBot.xUsername].
  split; [|split].
  - intros w Hin Hid Hne. rewrite <- Hid, walletMap_of_lookup by assumption.
    cbn. destruct (WalletRow.publicAddress w); [contradiction|reflexivity].
  - intros Hmiss. now rewrite walletMap_of_missing.
  - intros x name Hin Hid Hname Hne. rewrite <- Hid, xMap_of_lookup by assumption.
    cbn. rewrite Hname. destruct name; [contradiction|reflexivity].
Qed.

Lemma getBotsByUserWithDetails_details_witness :
  DetailedBot.walletAddress
    {| DetailedBot.bot := ReaderSample.molty;
       DetailedBot.walletAddress := Some (lit "So1anaAddr");
       DetailedBot.xUsername := Some (lit "molty_x");
       DetailedBot.xProfileImageUrl := None;
       DetailedBot.solBalance := lit "0.000000000" |}
  = Some (lit "So1anaAddr").
Proof.
  refine (proj1 (getBotsByUserWithDetails_details ReaderSample.db 1 _ _ _ _)
            {| WalletRow.botId := 5; WalletRow.publicAddress := lit "So1anaAddr" |}
            _ _ _).
  - vm_compute. repeat constructor; set_solver.
  - vm_compute. repeat constructor; set_solver.
  - vm_compute. left.
  - vm_compute. left.
  - reflexivity.
  - discriminate.
Defined.

(** X18.  [getAllBots] returns the bots of the query, one entry each in order,
    each with a non-empty owner name: the owner's username when the user
    query returned it (one row per id, name not empty), "Unknown" when it
    returned no row for the owner. *)
Theorem getAllBots_owners db limit :
  let uids : gset Z := list_to_set (Bot.userId <$> recent_bots db limit) in
  ListedBot.bot <$> getAllBots db limit = recent_bots db limit /\
  forall item, item ∈ getAllBots db limit ->
    ListedBot.ownerUsername item <> [] /\
    (Bot.userId (ListedBot.bot item) ∉ UserRow.id <$> users_inArray db uids ->
       ListedBot.ownerUsername item = Unknown) /\
    (NoDup (UserRow.id <$> users_inArray db uids) ->
     forall u, u ∈ users_inArray db uids ->
       UserRow.id u = Bot.userId (ListedBot.bot item) ->
       UserRow.username u <> [] ->
       ListedBot.ownerUsername item = UserRow.username u).
Proof.
  intros uids. unfold getAllBots.
  destruct (Nat.eqb (length (recent_bots db limit)) 0) eqn:E.
  - apply length_zero_nil in E. rewrite E. split; [reflexivity|set_solver].
  - fold uids. split.
    + rewrite <- list_fmap_compose. apply list_fmap_id.
    + intros item Hitem. apply list_elem_of_fmap in Hitem as (bot & -> & _).
      cbn [ListedBot.bot ListedBot.ownerUsername]. split; [|split].
      * apply or_default_nonempty. discriminate.
      * intros Hmiss.
        rewrite (foldl_insert_lookup_notin UserRow.id UserRow.username)
          by exact Hmiss.
        now rewrite lookup_empty.
      * intros Hnd u Hu Hid Hne.
        rewrite <- Hid, (foldl_insert_lookup UserRow.id UserRow.username)
          by assumption.
        cbn. destruct (UserRow.username u); [contradiction|reflexivity].
Qed.

End ReaderFacts.

(** ** The X account of a bot *)

Module XAccountFacts.
Import Js XAccount.

Lemma where_botId_set_columns b d r :
  where_botId b (set_columns d r) = where_botId b r.
Proof. reflexivity. Qed.

Lemma filter_updated b d rows :
  List.filter (where_botId b)
    (List.map (fun r => if where_botId (botId d) r then set_columns d r else r) rows)
  = List.map (fun r => if where_botId (botId d) r then set_columns d r else r)
      (List.filter (where_botId b) rows).
Proof.
  induction rows as [|r rows IH]; [reflexivity|].
  cbn [List.map List.filter].
  assert (E : where_botId b (if where_botId (botId d) r then set_columns d r else r)
              = where_botId b r)
    by (destruct (where_botId (botId d) r); reflexivity).
  rewrite E. destruct (where_botId b r); cbn [List.map]; now rewrite IH.
Qed.

Lemma set_columns_fields d r :
  where_botId (botId d) r = true -> fields (set_columns d r) = d.
Proof.
  unfold where_botId. intros H. apply Z.eqb_eq in H.
  destruct d, r as [i f]. cbn in *. now subst.
Qed.

(** X19.  After [upsertBotXAccount], [getBotXAccount] finds for that bot the row
    the upsert returned, and its columns are the ones given. *)
Theorem upsert_then_get tbl d :
  exists account,
    snd (upsertBotXAccount tbl d) = Some account /\
    getBotXAccount (fst (upsertBotXAccount tbl d)) (botId d) = Some account /\
    fields account = d.
Proof.
  unfold upsertBotXAccount, getBotXAccount.
  destruct (List.filter (where_botId (botId d)) (rows tbl)) as [|r rs] eqn:E;
    cbn [List.head fst snd rows].
  - exists {| id := next_id tbl; fields := d |}. split; [reflexivity|].
    split; [|reflexivity].
    rewrite List.filter_app, E. cbn [List.filter app].
    unfold where_botId at 1. cbn [fields]. now rewrite Z.eqb_refl.
  - rewrite filter_updated, E. cbn [List.map List.head].
    assert (Hr : where_botId (botId d) r = true).
    { assert (Hin : In r (List.filter (where_botId (botId d)) (rows tbl)))
        by (rewrite E; now left).
      now apply List.filter_In in Hin. }
    rewrite Hr. eexists. split; [reflexivity|]. split; [reflexivity|].
    now apply set_columns_fields.
Qed.

(** X20.  [upsertBotXAccount] leaves the rows of every other bot as they were,
    and what [getBotXAccount] finds for them. *)
Theorem upsert_keeps_other_bots tbl d b :
  b <> botId d ->
  List.filter (where_botId b) (rows (fst (upsertBotXAccount tbl d)))
    = List.filter (where_botId b) (rows tbl) /\
  getBotXAccount (fst (upsertBotXAccount tbl d)) b = getBotXAccount tbl b.
Proof.
  intros Hne.
  assert (H : List.filter (where_botId b) (rows (fst (upsertBotXAccount tbl d)))
              = List.filter (where_botId b) (rows tbl)).
  { unfold upsertBotXAccount.
    destruct (getBotXAccount tbl (botId d)); cbn [fst rows].
    - rewrite filter_updated.
      rewrite <- (List.map_id (List.filter (where_botId b) (rows tbl))) at 2.
      apply List.map_ext_in. intros r Hr. apply List.filter_In in Hr as [_ Hr].
      unfold where_botId in *. apply Z.eqb_eq in Hr.
      destruct (Z.eqb_spec (botId (fields r)) (botId d)); [congruence|reflexivity].
    - rewrite List.filter_app. cbn [List.filter].
      unfold where_botId at 2. cbn [fields].
      destruct (Z.eqb_spec (botId d) b); [congruence|]. apply app_nil_r. }
  split; [exact H|]. unfold getBotXAccount. now rewrite H.
Qed.

Lemma upsert_keeps_other_bots_witness :
  getBotXAccount (fst (upsertBotXAccount sample_table (tokens 5 "renamed" 9000))) 6
  = getBotXAccount sample_table 6.
Proof.
  apply (upsert_keeps_other_bots sample_table (tokens 5 "renamed" 9000) 6).
  discriminate.
Defined.

(** X21.  [upsertBotXAccount] adds a row only for a bot that had none: the bot
    has afterwards as many rows as before, or one if it had none. *)
Theorem upsert_row_count tbl d :
  length (List.filter (where_botId (botId d))
            (rows (fst (upsertBotXAccount tbl d))))
  = Nat.max 1 (length (List.filter (where_botId (botId d)) (rows tbl))).
Proof.
  unfold upsertBotXAccount, getBotXAccount.
  destruct (List.filter (where_botId (botId d)) (rows tbl)) as [|r rs] eqn:E;
    cbn [List.head fst rows].
  - rewrite List.filter_app, E. cbn [List.filter app].
    unfold where_botId at 1. cbn [fields]. now rewrite Z.eqb_refl.
  - rewrite filter_updated, E, length_map. cbn [length]. lia.
Qed.

(** X22.  After [deleteBotXAccount] the bot has no X account, and the accounts
    of the other bots are found as before. *)
Theorem delete_then_get tbl b :
  getBotXAccount (deleteBotXAccount tbl b) b = None /\
  forall b', b' <> b ->
    getBotXAccount (deleteBotXAccount tbl b) b' = getBotXAccount tbl b'.
Proof.
  unfold getBotXAccount, deleteBotXAccount. cbn [rows]. split.
  - induction (rows tbl) as [|r rs IH]; [reflexivity|].
    cbn [List.filter]. destruct (where_botId b r) eqn:E; cbn [negb]; [exact IH|].
    cbn [List.filter]. now rewrite E.
  - intros b' Hne. f_equal.
    induction (rows tbl) as [|r rs IH]; [reflexivity|].
    cbn [List.filter]. destruct (where_botId b r) eqn:E; cbn [negb].
    + assert (where_botId b' r = false) as ->; [|exact IH].
      unfold where_botId in *. apply Z.eqb_eq in E. apply Z.eqb_neq. congruence.
    + cbn [List.filter]. destruct (where_botId b' r); now rewrite IH.
Qed.

End XAccountFacts.

(** ** Analytics *)

Module AnalyticsFacts.
Import Js Analytics JsFacts.

Lemma filter_disjoint_length {A} (p q : A -> bool) (l : list A) :
  (forall x, p x = true -> q x = false) ->
  (length (List.filter p l) + length (List.filter q l) <= length l)%nat /\
  ((length (List.filter p l) + length (List.filter q l) = length l)%nat
   <-> Forall (fun x => p x || q x = true) l).
Proof.
  intros Hpq. induction l as [|x l [IH1 IH2]].
  - cbn. split; [lia|]. split; [constructor|reflexivity].
  - cbn [List.filter length].
    pose proof (List.filter_length_le p l) as Hp.
    pose proof (List.filter_length_le q l) as Hq.
    destruct (p x) eqn:Ep; [rewrite (Hpq x Ep)|destruct (q x) eqn:Eq];
      cbn [length orb]; (split; [lia|]).
    + rewrite Forall_cons, Ep. cbn [orb]. rewrite <- IH2. split; [|intros [_ H]]; lia.
    + rewrite Forall_cons, Ep, Eq. cbn [orb]. rewrite <- IH2.
      split; [|intros [_ H]]; lia.
    + rewrite Forall_cons, Ep, Eq. cbn [orb]. split; [lia|]. intros [H _].
      discriminate.
Qed.

(** X23.  [getBotPerformance]: completed and failed trades together never exceed
    the total, they make up the total exactly when no trade has another
    status, and for a bot without trades the success rate is 0, without a
    division. *)
Theorem getBotPerformance_counts F db botId :
  let perf := getBotPerformance F db botId in
  (successfulTrades F perf + failedTrades F perf <= totalTrades F perf)%nat /\
  ((successfulTrades F perf + failedTrades F perf = totalTrades F perf)%nat
   <-> Forall (fun t => Trade.status t = lit "completed"
                        \/ Trade.status t = lit "failed")
              (trades_of_bot db botId)) /\
  (trades_of_bot db botId = [] -> successRate F perf = of_Z F 0).
Proof.
  cbv zeta. unfold getBotPerformance.
  cbn [successfulTrades failedTrades totalTrades successRate].
  destruct (filter_disjoint_length (hasStatus "completed") (hasStatus "failed")
              (trades_of_bot db botId)) as [Hle Heq].
  { intros t Ht. unfold hasStatus in *. apply str_eqb_eq in Ht.
    rewrite Ht. reflexivity. }
  split; [exact Hle|]. split.
  - rewrite Heq. apply Forall_iff. intros t. unfold hasStatus.
    rewrite orb_true_iff, !str_eqb_eq. reflexivity.
  - intros ->. reflexivity.
Qed.

Lemma fold_addTrade F trades buy sell :
  List.fold_left (addTrade F) trades (buy, sell)
  = (List.fold_left (fun acc t => fadd F acc (amountOf F t))
       (List.filter isBuy trades) buy,
     List.fold_left (fun acc t => fadd F acc (amountOf F t))
       (List.filter (fun t => negb (isBuy t)) trades) sell).
Proof.
  revert buy sell. induction trades as [|t trades IH]; intros buy sell;
    [reflexivity|].
  cbn [List.fold_left List.filter]. unfold addTrade at 2. cbn [fst snd].
  destruct (isBuy t); cbn [negb List.fold_left]; apply IH.
Qed.

(** X24.  [get24hVolume]: the buy volume is the sum, in order, of the amounts of
    the trades of type "buy" and the sell volume that of all the other
    trades, whatever their type; the query is asked for the trades since
    86,400,000 ms before now. *)
Theorem get24hVolume_split F db now botId :
  let trades := completed_trades_since db botId (now - 86400000)%Z in
  let sum := List.fold_left (fun acc t => fadd F acc (amountOf F t)) in
  buyVolume F (get24hVolume F db now botId)
    = sum (List.filter isBuy trades) (of_Z F 0) /\
  sellVolume F (get24hVolume F db now botId)
    = sum (List.filter (fun t => negb (isBuy t)) trades) (of_Z F 0) /\
  totalVolume F (get24hVolume F db now botId)
    = fadd F (buyVolume F (get24hVolume F db now botId))
             (sellVolume F (get24hVolume F db now botId)).
Proof.
  cbv zeta. unfold get24hVolume.
  cbn [buyVolume sellVolume totalVolume].
  change (24 * 60 * 60 * 1000)%Z with 86400000%Z.
  rewrite fold_addTrade. cbn [fst snd]. repeat split.
Qed.

(** X25.  [getPlatformStats]: the active agents are at most the agents, and all
    of them exactly when every bot has status "active". *)
Theorem getPlatformStats_agents F db :
  (activeAgents F (getPlatformStats F db) <= totalAgents F (getPlatformStats F db))%nat /\
  (activeAgents F (getPlatformStats F db) = totalAgents F (getPlatformStats F db)
   <-> Forall (fun b => Bot.status b = lit "active") (all_bots db)).
Proof.
  unfold getPlatformStats. cbn [activeAgents totalAgents].
  induction (all_bots db) as [|b bots [IH1 IH2]].
  - cbn. split; [lia|]. split; [constructor|reflexivity].
  - cbn [List.filter length].
    pose proof (List.filter_length_le
                  (fun b => str_eqb (Bot.status b) (lit "active")) bots) as Hle.
    destruct (str_eqb (Bot.status b) (lit "active")) eqn:E; cbn [length].
    + apply str_eqb_eq in E. split; [lia|]. rewrite Forall_cons, <- IH2.
      split; [intros H; split; [exact E|lia] | intros [_ H]; lia].
    + split; [lia|]. split; [lia|]. intros H. apply Forall_cons in H as [H _].
      apply str_eqb_eq in H. congruence.
Qed.

End AnalyticsFacts.
